(** * Secure service adaptor and service repository of cocaine-framework-python

    A shallow embedding of [cocaine/detail/secadaptor.py] and
    [cocaine/detail/repository.py], followed by the properties of the
    token life cycle, of the argument injection and of the two caches.

    Python objects live in a heap and are named by their address; a dict
    is a [gmap]; a coroutine is a computation in a state-and-exception
    monad whose state survives a raised exception, as the fields of a
    Python object do.  Everything outside the process (the clock, the
    ticket services, the wrapped service) is an oracle of the
    environment. *)

From stdpp Require Import gmap strings list pretty.

Local Open Scope string_scope.
Local Open Scope Z_scope.
Local Open Scope list_scope.

(** ** Values, exceptions, outcomes *)

(** The Python values that travel through the adaptor: call arguments,
    tickets and tokens.  [VDictEmpty] is the literal [{}] that
    [TVM.fetch_token] passes to [ticket_full]. *)
Inductive value :=
| VNone
| VBool (b : bool)
| VInt (n : Z)
| VStr (s : string)
| VDictEmpty.

(** What ['{}'.format(v)] prints for a value. *)
Definition py_format (v : value) : string :=
  match v with
  | VNone => "None"
  | VBool true => "True"
  | VBool false => "False"
  | VInt n => pretty n
  | VStr s => s
  | VDictEmpty => "{}"
  end.

(** An instance of Python's [Exception]: its class and what [str(err)]
    gives.  These are the exceptions an [except Exception] clause
    intercepts. *)
Record exn := Exn { exn_type : string; exn_str : string }.

Inductive outcome (A : Type) :=
| Ok (a : A)
| Raised (e : exn).
Arguments Ok {A} a.
Arguments Raised {A} e.

(** Addresses of heap objects, channels returned by a ticket service, and
    whatever object a wrapped method hands back; all compared by
    identity. *)
Definition ref := nat.
Definition channel := nat.
Definition obj := nat.

(** ** The monad of coroutines *)

Definition M (Σ A : Type) : Type := Σ → outcome A * Σ.

Global Instance M_ret {Σ} : MRet (M Σ) := λ A a s, (Ok a, s).
Global Instance M_bind {Σ} : MBind (M Σ) := λ A B f m s,
  match m s with
  | (Ok a, s') => f a s'
  | (Raised e, s') => (Raised e, s')
  end.

Definition raise {Σ A} (e : exn) : M Σ A := λ s, (Raised e, s).

(** [try: m except Exception as err: h err] *)
Definition try_except {Σ A} (m : M Σ A) (h : exn → M Σ A) : M Σ A := λ s,
  match m s with
  | (Ok a, s') => (Ok a, s')
  | (Raised e, s') => h e s'
  end.

Definition gets {Σ A} (f : Σ → A) : M Σ A := λ s, (Ok (f s), s).
Definition modify {Σ} (f : Σ → Σ) : M Σ unit := λ s, (Ok tt, f s).

(** ** The world outside the process *)

(** What the process did to the outside, oldest first.  [EvFetchToken]
    marks each entry into a provider's [fetch_token]; the other events
    are the requests that leave the process. *)
Inductive event :=
| EvFetchToken
| EvTicketCall (service : ref) (method : string) (args : list value)
| EvRxGet (ch : channel)
| EvInvoke (wrapped : ref) (name : string) (args : list value)
           (kwargs : gmap string value).

Record World := MkWorld {
  reads : nat;          (* how often [time.time()] was read *)
  trace : list event
}.

(** The environment answers every question the process asks.  A reply
    may depend on all that happened before.  The clock is read in
    seconds; the code compares readings and adds the interval to them,
    nothing else, and readings are taken in [Z]. *)
Record Env := MkEnv {
  clock : nat → Z;      (* the n-th reading of [time.time()], in seconds *)
  ticket_reply : World → ref → string → list value → outcome channel;
  rx_reply : World → channel → outcome value;
  other_fetch : World → nat → outcome value;
  invoke_reply :
    World → ref → string → list value → gmap string value → outcome obj
}.

Definition log (ev : event) (w : World) : World :=
  MkWorld (reads w) (trace w ++ [ev]).

Definition is_fetch (ev : event) : bool :=
  match ev with EvFetchToken => true | _ => false end.

Definition is_ticket_request (ev : event) : bool :=
  match ev with EvTicketCall _ _ _ | EvRxGet _ => true | _ => false end.

Definition is_invoke (ev : event) : bool :=
  match ev with EvInvoke _ _ _ _ => true | _ => false end.

Definition count_fetches (tr : list event) : nat := length (filter is_fetch tr).
Definition ticket_requests (tr : list event) : list event :=
  filter is_ticket_request tr.
Definition invocations (tr : list event) : list event := filter is_invoke tr.

Section Process.

Variable env : Env.

(** [time.time()] *)
Definition time_time : M World Z := λ w,
  (Ok (clock env (reads w)), MkWorld (S (reads w)) (trace w)).

(** [yield service.method( *args )] on a ticket service; a provider built
    without a ticket service holds [None] there. *)
Definition ticket_call (service : option ref) (method : string)
    (args : list value) : M World channel := λ w,
  match service with
  | Some s => (ticket_reply env w s method args, log (EvTicketCall s method args) w)
  | None =>
      (Raised (Exn "AttributeError"
                 ("'NoneType' object has no attribute '" +:+ method +:+ "'")), w)
  end.

(** [yield channel.rx.get()] *)
Definition rx_get (ch : channel) : M World value := λ w,
  (rx_reply env w ch, log (EvRxGet ch) w).

(** [yield getattr(wrapped, name)( *args, **kwargs )] *)
Definition invoke (wrapped : ref) (name : string) (args : list value)
    (kwargs : gmap string value) : M World obj := λ w,
  (invoke_reply env w wrapped name args kwargs,
   log (EvInvoke wrapped name args kwargs) w).

(** ** secadaptor.py: credential providers *)

Record Credentials := MkCredentials {
  client_id : value;
  client_secret : value
}.

Definition _make_token (auth_type : string) (ticket : value) : string :=
  auth_type +:+ " " +:+ py_format ticket.

Definition TVM_TYPE : string := "TVM".
Definition TVM2_TYPE : string := "TVM2".

(** The classes with a [fetch_token] method.  [OtherProvider] is any
    further object handed to [SecureServiceAdaptor] as [secure]: its
    fetch is answered by the environment. *)
Inductive Provider :=
| Promiscuous
| TVM (_tvm : option ref) (_credentials : Credentials)
| TVM2 (_tvm2 : option ref) (_credentials : Credentials)
| OtherProvider (id : nat).

Definition fetch_token (p : Provider) : M World value :=
  modify (log EvFetchToken);;
  match p with
  | Promiscuous => mret (VStr "")
  | TVM _tvm cred =>
      let grant_type := VStr "client_credentials" in
      ch ← ticket_call _tvm "ticket_full"
             [client_id cred; client_secret cred; grant_type; VDictEmpty];
      ticket ← rx_get ch;
      mret (VStr (_make_token TVM_TYPE ticket))
  | TVM2 _tvm2 cred =>
      ch ← ticket_call _tvm2 "ticket" [client_id cred; client_secret cred];
      ticket ← rx_get ch;
      mret (VStr (_make_token TVM2_TYPE ticket))
  | OtherProvider id => λ w, (other_fetch env w id, w)
  end.

(** ** secadaptor.py: SecureServiceAdaptor *)

Record SecureServiceAdaptor := MkAdaptor {
  _wrapped : ref;
  _secure : Provider;
  _token_expiration_s : Z;
  _token : value;
  _to_expire : Z
}.

(** [SecureServiceAdaptor.__init__] *)
Definition SecureServiceAdaptor_init (wrapped : ref) (secure : Provider)
    (token_expiration_s : Z) : SecureServiceAdaptor :=
  MkAdaptor wrapped secure token_expiration_s VNone 0.

(** A running adaptor: the object and the world around it. *)
Record State := MkState {
  self : SecureServiceAdaptor;
  world : World
}.

Definition in_world {A} (m : M World A) : M State A := λ st,
  let (r, w) := m (world st) in (r, MkState (self st) w).

Definition set_token (tok : value) (st : State) : State :=
  let a := self st in
  MkState (MkAdaptor (_wrapped a) (_secure a) (_token_expiration_s a)
             tok (_to_expire a)) (world st).

Definition set_to_expire (t : Z) (st : State) : State :=
  let a := self st in
  MkState (MkAdaptor (_wrapped a) (_secure a) (_token_expiration_s a)
             (_token a) t) (world st).

Definition SecureServiceError (msg : string) : exn :=
  Exn "SecureServiceError" msg.

Definition _get_token : M State value :=
  try_except
    (now ← in_world time_time;
     to_expire ← gets (λ st, _to_expire (self st));
     if bool_decide (to_expire ≤ now) then
       secure ← gets (λ st, _secure (self st));
       tok ← in_world (fetch_token secure);
       modify (set_token tok);;
       now' ← in_world time_time;
       interval ← gets (λ st, _token_expiration_s (self st));
       modify (set_to_expire (now' + interval))
     else mret tt)
    (λ err, raise (SecureServiceError
                     ("failed to fetch secure token: " +:+ exn_str err)));;
  gets (λ st, _token (self st)).

(** The coroutine [__getattr__(name)] returns.  Python asks
    [__getattr__] for the names the adaptor does not define itself, so
    for every method but [connect], [disconnect] and [_get_token]. *)
Definition wrapper (name : string) (args : list value)
    (kwargs : gmap string value) : M State obj :=
  tok ← _get_token;
  let kwargs := <["authorization" := tok]> kwargs in
  wrapped ← gets (λ st, _wrapped (self st));
  in_world (invoke wrapped name args kwargs).

End Process.

(** ** The heap of Python objects *)

Definition endpoint : Type := string * Z.

Inductive object :=
| ObjLocator (endpoints : list endpoint)
| ObjService (name : string) (endpoints : list endpoint) (locator : option ref)
| ObjAdaptor (a : SecureServiceAdaptor).

Definition Heap := list object.

(** Calling a class allocates a fresh object; its address is its
    identity ([is] in Python). *)
Definition new (o : object) : M Heap ref := λ h, (Ok (length h), h ++ [o]).

Definition lift_outcome {Σ A} (r : outcome A) : M Σ A := λ s, (r, s).

Section Factories.

(** [LOCATOR_DEFAULT_ENDPOINTS] of [cocaine/detail/locator.py], which the
    functions below only pass on. *)
Variable LOCATOR_DEFAULT_ENDPOINTS : list endpoint.

(** Modelled from the spec: the constructors [Locator(endpoints)] and
    [Service(name, endpoints, locator=...)] of [cocaine/detail/locator.py]
    and [cocaine/detail/service.py] are missing.  The spec has the handle
    factory produce a handle from a service name and the discovery
    resolver, opening no network resource at construction; here a
    constructor call allocates an object that records its arguments. *)
Definition Locator (endpoints : list endpoint) : M Heap ref :=
  new (ObjLocator endpoints).

Definition Service (name : string) (endpoints : option (list endpoint))
    (locator : option ref) : M Heap ref :=
  new (ObjService name (default LOCATOR_DEFAULT_ENDPOINTS endpoints) locator).

(** Modelled from the spec: the attribute [service.endpoints] of a handle
    (a [Service] or the [Locator]); the classes are missing.  The
    argument is documented as the service to wrap, and handles are all
    that is modelled here.  On a [SecureServiceAdaptor] the lookup would
    go through [__getattr__] and give a coroutine, which is no list of
    endpoints; that case and an address with nothing behind it are
    answered with an error, and every statement about
    [make_secure_adaptor] below is about a handle ([is_handle]). *)
Definition get_endpoints (service : ref) : M Heap (list endpoint) := λ h,
  match h !! service with
  | Some (ObjLocator eps) | Some (ObjService _ eps _) => (Ok eps, h)
  | _ => (Raised (Exn "AttributeError" "endpoints"), h)
  end.

(** [Credentials( **kwargs )]: a namedtuple takes exactly its two fields.
    The text of the [TypeError] depends on the interpreter and is
    abbreviated. *)
Definition Credentials_new (kwargs : gmap string value) : outcome Credentials :=
  match kwargs !! "client_id", kwargs !! "client_secret" with
  | Some i, Some s =>
      if bool_decide (size kwargs = 2%nat) then Ok (MkCredentials i s)
      else Raised (Exn "TypeError" "__new__() got an unexpected keyword argument")
  | _, _ => Raised (Exn "TypeError" "__new__() missing required arguments")
  end.

Definition create_ticket_service (mod_ : string) (endpoints : list endpoint)
    : M Heap (option ref) :=
  if bool_decide (mod_ = TVM_TYPE) then
    s ← Service "tvm" (Some endpoints) None; mret (Some s)
  else if bool_decide (mod_ = TVM2_TYPE) then
    s ← Service "tvm2" (Some endpoints) None; mret (Some s)
  else mret None.

Definition create_secure_provider (mod_ : string) (ticket_service : option ref)
    (kwargs : gmap string value) : outcome Provider :=
  if bool_decide (mod_ = TVM_TYPE) then
    match Credentials_new kwargs with
    | Ok cred => Ok (TVM ticket_service cred)
    | Raised e => Raised e
    end
  else if bool_decide (mod_ = TVM2_TYPE) then
    match Credentials_new kwargs with
    | Ok cred => Ok (TVM2 ticket_service cred)
    | Raised e => Raised e
    end
  else Ok Promiscuous.

(** The call [create_secure_provider(mod, ticket_service, **kwargs)] as
    [make_secure_adaptor] and [SecureServiceRepository.__init__] write
    it: a [ticket_service] among the caller's extra keywords collides
    with the second argument. *)
Definition call_create_secure_provider (mod_ : string)
    (ticket_service : option ref) (kwargs : gmap string value)
    : outcome Provider :=
  match kwargs !! "ticket_service" with
  | Some _ =>
      Raised (Exn "TypeError"
                "create_secure_provider() got multiple values for keyword argument 'ticket_service'")
  | None => create_secure_provider mod_ ticket_service kwargs
  end.

(** [SecureServiceAdaptor(wrapped, secure, token_expiration_s)] *)
Definition SecureServiceAdaptor_new (wrapped : ref) (secure : Provider)
    (token_expiration_s : Z) : M Heap ref :=
  new (ObjAdaptor (SecureServiceAdaptor_init wrapped secure token_expiration_s)).

(** [SecureServiceFactory.make_secure_adaptor]; [endpoints or
    service.endpoints] takes the handle's endpoints when the argument is
    [None] or empty. *)
Definition make_secure_adaptor (service : ref)
    (endpoints : option (list endpoint)) (mod_ : string)
    (token_expiration_s : Z) (kwargs : gmap string value) : M Heap ref :=
  endpoints ← match endpoints with
              | Some (e :: eps) => mret (e :: eps)
              | _ => get_endpoints service
              end;
  ticket_service ← create_ticket_service mod_ endpoints;
  provider ← lift_outcome (call_create_secure_provider mod_ ticket_service kwargs);
  SecureServiceAdaptor_new service provider token_expiration_s.

End Factories.

(** ** repository.py *)

Module repository.

Record ServiceRepository := MkServiceRepository {
  _locator : ref;
  _cache : gmap string ref
}.

Record SecureServiceRepository := MkSecureServiceRepository {
  base : ServiceRepository;       (* the fields of the superclass *)
  _token_expiration_s : Z;
  _secure_provider : Provider;
  _cache_secured : gmap string ref
}.

(** A repository object and the heap it allocates in. *)
Record Plain := MkPlain {
  plain_self : ServiceRepository;
  plain_heap : Heap
}.

Record Secure := MkSecure {
  secure_self : SecureServiceRepository;
  secure_heap : Heap
}.

Definition in_heap {A} (m : M Heap A) : M Plain A := λ st,
  let (r, h) := m (plain_heap st) in (r, MkPlain (plain_self st) h).

Definition in_secure_heap {A} (m : M Heap A) : M Secure A := λ st,
  let (r, h) := m (secure_heap st) in (r, MkSecure (secure_self st) h).

Definition as_plain (st : Secure) : Plain :=
  MkPlain (base (secure_self st)) (secure_heap st).

(** A method of the superclass run on an instance of the subclass. *)
Definition super {A} (m : M Plain A) : M Secure A := λ st,
  let s := secure_self st in
  let (r, p) := m (as_plain st) in
  (r, MkSecure (MkSecureServiceRepository (plain_self p) (_token_expiration_s s)
                  (_secure_provider s) (_cache_secured s)) (plain_heap p)).

Definition set_cache (name : string) (service : ref) (st : Plain) : Plain :=
  let s := plain_self st in
  MkPlain (MkServiceRepository (_locator s) (<[name := service]> (_cache s)))
    (plain_heap st).

Definition set_cache_secured (name : string) (service : ref) (st : Secure)
    : Secure :=
  let s := secure_self st in
  MkSecure (MkSecureServiceRepository (base s) (_token_expiration_s s)
              (_secure_provider s) (<[name := service]> (_cache_secured s)))
    (secure_heap st).

Section Repository.

(** [LOCATOR_SERVICE_NAME] and [LOCATOR_DEFAULT_ENDPOINTS] of
    [cocaine/detail/locator.py]. *)
Variable LOCATOR_SERVICE_NAME : string.
Variable LOCATOR_DEFAULT_ENDPOINTS : list endpoint.

(** [ServiceRepository.__init__] *)
Definition ServiceRepository_init (endpoints : option (list endpoint))
    : M Heap ServiceRepository :=
  locator ← Locator (default LOCATOR_DEFAULT_ENDPOINTS endpoints);
  mret (MkServiceRepository locator ∅).

Definition create_service (name : string) : M Plain ref :=
  cache ← gets (λ st, _cache (plain_self st));
  match cache !! name with
  | Some service => mret service
  | None =>
      if bool_decide (name = LOCATOR_SERVICE_NAME) then
        gets (λ st, _locator (plain_self st))
      else
        locator ← gets (λ st, _locator (plain_self st));
        service ← in_heap (Service LOCATOR_DEFAULT_ENDPOINTS name None
                             (Some locator));
        modify (set_cache name service);;
        mret service
  end.

(** [SecureServiceRepository.__init__] *)
Definition SecureServiceRepository_init (endpoints : option (list endpoint))
    (mod_ : string) (token_expiration_s : Z) (kwargs : gmap string value)
    : M Heap SecureServiceRepository :=
  super_fields ← ServiceRepository_init endpoints;
  ticket_service ← create_ticket_service LOCATOR_DEFAULT_ENDPOINTS mod_
                      (default LOCATOR_DEFAULT_ENDPOINTS endpoints);
  provider ← lift_outcome (call_create_secure_provider mod_ ticket_service kwargs);
  mret (MkSecureServiceRepository super_fields token_expiration_s provider ∅).

Definition create_secure_service (name : string) : M Secure ref :=
  cache ← gets (λ st, _cache_secured (secure_self st));
  match cache !! name with
  | Some service => mret service
  | None =>
      wrapped ← super (create_service name);
      provider ← gets (λ st, _secure_provider (secure_self st));
      interval ← gets (λ st, _token_expiration_s (secure_self st));
      service ← in_secure_heap (SecureServiceAdaptor_new wrapped provider interval);
      modify (set_cache_secured name service);;
      mret service
  end.

(** *** The life of a repository: the calls its users make, in order *)

Fixpoint resolve_all (names : list string) : M Plain (list ref) :=
  match names with
  | [] => mret []
  | name :: names =>
      service ← create_service name;
      services ← resolve_all names;
      mret (service :: services)
  end.

Inductive request :=
| Resolve (name : string)
| ResolveSecure (name : string).

Definition serve (rq : request) : M Secure ref :=
  match rq with
  | Resolve name => super (create_service name)
  | ResolveSecure name => create_secure_service name
  end.

Fixpoint serve_all (rqs : list request) : M Secure (list ref) :=
  match rqs with
  | [] => mret []
  | rq :: rqs =>
      r ← serve rq;
      rs ← serve_all rqs;
      mret (r :: rs)
  end.

End Repository.

End repository.

(** ** The callers of an adaptor *)

Record call := MkCall {
  call_name : string;
  call_args : list value;
  call_kwargs : gmap string value
}.

(** The intercepted calls a caller makes one after the other; the caller
    sees the outcome of each, and an error of one call does not stop
    the next. *)
Fixpoint call_all (env : Env) (calls : list call) (st : State)
    : list (outcome obj) * State :=
  match calls with
  | [] => ([], st)
  | c :: calls =>
      let (r, st1) := wrapper env (call_name c) (call_args c) (call_kwargs c) st in
      let (rs, st2) := call_all env calls st1 in
      (r :: rs, st2)
  end.

(** The world right after one reading of the clock. *)
Definition tick (w : World) : World := MkWorld (S (reads w)) (trace w).

(** The stored token is due for renewal at the next reading of the
    clock: [time.time() >= self._to_expire]. *)
Definition due (env : Env) (st : State) : Prop :=
  _to_expire (self st) ≤ clock env (reads (world st)).

Global Instance due_dec env st : Decision (due env st).
Proof. unfold due. apply _. Defined.

(** The reading of the clock never runs backwards. *)
Definition monotone_clock (env : Env) : Prop :=
  ∀ n, clock env n ≤ clock env (S n).

(** The objects that are service handles. *)
Definition is_handle (o : object) : bool :=
  match o with
  | ObjLocator _ | ObjService _ _ _ => true
  | ObjAdaptor _ => false
  end.

(** What [create_service name] returns without constructing anything:
    the cached handle, else the locator under its reserved name. *)
Definition resolved (LOCATOR_SERVICE_NAME : string)
    (s : repository.ServiceRepository) (name : string) : option ref :=
  match repository._cache s !! name with
  | Some service => Some service
  | None =>
      if bool_decide (name = LOCATOR_SERVICE_NAME)
      then Some (repository._locator s) else None
  end.

(** The names of the [Service] objects among some objects, one entry per
    call of the constructor. *)
Fixpoint service_names (h : Heap) : list string :=
  match h with
  | [] => []
  | ObjService name _ _ :: h => name :: service_names h
  | _ :: h => service_names h
  end.

(** Every cached adaptor wraps what [create_service] returns for its
    name. *)
Definition adaptors_wrap_resolved (LOCATOR_SERVICE_NAME : string)
    (st : repository.Secure) : Prop :=
  ∀ name a,
    repository._cache_secured (repository.secure_self st) !! name = Some a →
    ∃ ad, repository.secure_heap st !! a = Some (ObjAdaptor ad) ∧
          resolved LOCATOR_SERVICE_NAME
            (repository.base (repository.secure_self st)) name
          = Some (_wrapped ad).

(** What "fetched exactly once, then reused" would mean for the calls of
    a caller. *)
Definition fetched_once (env : Env) (st : State) (calls : list call) : Prop :=
  count_fetches (trace (world (call_all env calls st).2)) = 1%nat.

(** ** A small world to run the code in

    The clock starts at 100 and advances one second per reading; the
    ticket service of ["ticket_full"] answers with ticket ["abc"], the
    one of ["ticket"] with ticket ["xyz"]; any other provider is
    unreachable; the wrapped service answers every call. *)
Definition example_env : Env :=
  MkEnv (λ n, 100 + Z.of_nat n)
    (λ _ _ method _, if bool_decide (method = "ticket_full") then Ok 7%nat else Ok 8%nat)
    (λ _ ch, if bool_decide (ch = 7%nat) then Ok (VStr "abc") else Ok (VStr "xyz"))
    (λ _ _, Raised (Exn "IOError" "ticket service unreachable"))
    (λ _ _ _ _ _, Ok 9%nat).

Definition example_credentials : Credentials :=
  MkCredentials (VStr "id") (VStr "secret").

Definition example_world : World := MkWorld 0 [].

(** Fresh adaptors around the handle at address 1. *)
Definition example_adaptor (secure : Provider) (interval : Z) : State :=
  MkState (SecureServiceAdaptor_init 1%nat secure interval) example_world.

Definition example_call : call := MkCall "info" [VInt 1; VStr "b"] ∅.

Definition example_endpoints : list endpoint := [("localhost", 10053)].

(** A heap holding the locator and one service. *)
Definition example_heap : Heap :=
  [ObjLocator example_endpoints;
   ObjService "node" example_endpoints (Some 0%nat)].

Definition example_kwargs : gmap string value :=
  {["client_id" := VStr "id"; "client_secret" := VStr "secret"]}.

Definition example_requests : list repository.request :=
  [repository.ResolveSecure "node"; repository.Resolve "node";
   repository.ResolveSecure "node"; repository.Resolve "locator";
   repository.ResolveSecure "locator"; repository.Resolve "tvm2"].

(** The secure repository that [SecureServiceRepository(mod='TVM2',
    token_expiration_s=30, client_id='id', client_secret='secret')]
    builds in an empty heap, and that heap afterwards. *)
Definition example_repository : repository.SecureServiceRepository :=
  repository.MkSecureServiceRepository
    (repository.MkServiceRepository 0%nat ∅) 30
    (TVM2 (Some 1%nat) example_credentials) ∅.

Definition example_repository_heap : Heap :=
  [ObjLocator example_endpoints; ObjService "tvm2" example_endpoints None].

(** A clock under which the first fetch takes three seconds: it reads
    100, 103, 131, 132, and 134 from then on. *)
Definition slow_fetch_env : Env :=
  MkEnv (λ n, match n with
              | 0%nat => 100 | 1%nat => 103 | 2%nat => 131 | 3%nat => 132
              | _ => 134
              end)
    (ticket_reply example_env) (rx_reply example_env)
    (other_fetch example_env) (invoke_reply example_env).

(** What "a call at time t0 stores expiry t0 + T" would mean: the expiry
    after the call is the interval past the clock reading the call
    started with. *)
Definition stores_expiry_from_call_time (env : Env) (st : State)
    (name : string) (args : list value) (kwargs : gmap string value) : Prop :=
  _to_expire (self (wrapper env name args kwargs st).2)
  = clock env (reads (world st)) + _token_expiration_s (self st).

(** A provider that hands out one token and is unreachable afterwards. *)
Definition flaky_env : Env :=
  MkEnv (clock example_env) (ticket_reply example_env) (rx_reply example_env)
    (λ w _, if bool_decide (count_fetches (trace w) ≤ 1)%nat
            then Ok (VStr "tok1")
            else Raised (Exn "IOError" "ticket service unreachable"))
    (invoke_reply example_env).

(** ** The rest of the adaptor: [connect] and [disconnect]

    Both are defined on the class, so [__getattr__] is not asked for
    them: they call the wrapped handle directly, [connect] with the
    trace id as its one argument and awaiting the result, [disconnect]
    with no argument and handing back what the handle returns. *)
Definition connect (env : Env) (traceid : value) : M State unit :=
  wrapped ← gets (λ st, _wrapped (self st));
  in_world (invoke env wrapped "connect" [traceid] ∅);;
  mret tt.

Definition disconnect (env : Env) : M State obj :=
  wrapped ← gets (λ st, _wrapped (self st));
  in_world (invoke env wrapped "disconnect" [] ∅).

(** What a user does with an adaptor. *)
Inductive action :=
| Call (c : call)
| Connect (traceid : value)
| Disconnect.

Definition is_call (a : action) : bool :=
  match a with Call _ => true | _ => false end.

(** The adaptor and the world after one action, whatever its outcome. *)
Definition use (env : Env) (st : State) (a : action) : State :=
  match a with
  | Call c => (wrapper env (call_name c) (call_args c) (call_kwargs c) st).2
  | Connect traceid => (connect env traceid st).2
  | Disconnect => (disconnect env st).2
  end.

Definition use_all (env : Env) (acts : list action) (st : State) : State :=
  foldl (use env) st acts.

(** The call of the wrapped handle that [connect] or [disconnect]
    amounts to. *)
Definition lifecycle_event (wrapped : ref) (a : action) : list event :=
  match a with
  | Call _ => []
  | Connect traceid => [EvInvoke wrapped "connect" [traceid] ∅]
  | Disconnect => [EvInvoke wrapped "disconnect" [] ∅]
  end.

(** The providers this file defines, as opposed to any other object
    with a [fetch_token]. *)
Definition source_provider (p : Provider) : Prop :=
  match p with OtherProvider _ => False | _ => True end.

(** A call of the wrapped handle that carries a string as
    [authorization]. *)
Definition authorized (ev : event) : Prop :=
  match ev with
  | EvInvoke _ _ _ kwargs => ∃ s, kwargs !! "authorization" = Some (VStr s)
  | _ => True
  end.

(** A call of the wrapped handle as [connect] and [disconnect] make it:
    under one of these two names and with no keyword at all. *)
Definition lifecycle_call (ev : event) : Prop :=
  match ev with
  | EvInvoke _ name _ kwargs =>
      (name = "connect" ∨ name = "disconnect") ∧ kwargs = ∅
  | _ => False
  end.

(** The request a provider sends to its ticket service. *)
Definition ticket_request (p : Provider) : option (ref * string * list value) :=
  match p with
  | TVM (Some s) cred =>
      Some (s, "ticket_full",
            [client_id cred; client_secret cred; VStr "client_credentials";
             VDictEmpty])
  | TVM2 (Some s) cred =>
      Some (s, "ticket", [client_id cred; client_secret cred])
  | _ => None
  end.

(** The keywords [Credentials] accepts. *)
Definition credentials_kwargs (c : Credentials) : gmap string value :=
  {["client_id" := client_id c; "client_secret" := client_secret c]}.

(** The name of the ticket service of a mode. *)
Definition ticket_service_name (mod_ : string) : option string :=
  if bool_decide (mod_ = TVM_TYPE) then Some "tvm"
  else if bool_decide (mod_ = TVM2_TYPE) then Some "tvm2"
  else None.

(** [service.endpoints] of a handle object. *)
Definition object_endpoints (o : object) : list endpoint :=
  match o with
  | ObjLocator eps | ObjService _ eps _ => eps
  | ObjAdaptor _ => []
  end.

(** The shape of a secure repository that its methods keep: the locator
    is a locator object and never a cache entry, every cached handle was
    built for its own name with the repository's locator, and every
    cached adaptor is as its constructor left it, with the repository's
    provider and interval, around the handle of its name. *)
Definition well_formed (LOCATOR_SERVICE_NAME : string)
    (LOCATOR_DEFAULT_ENDPOINTS : list endpoint) (st : repository.Secure) : Prop :=
  let s := repository.secure_self st in
  let h := repository.secure_heap st in
  let locator := repository._locator (repository.base s) in
  (∃ eps, h !! locator = Some (ObjLocator eps)) ∧
  repository._cache (repository.base s) !! LOCATOR_SERVICE_NAME = None ∧
  (∀ n r, repository._cache (repository.base s) !! n = Some r →
          h !! r = Some (ObjService n LOCATOR_DEFAULT_ENDPOINTS (Some locator))) ∧
  (∀ n a, repository._cache_secured s !! n = Some a →
          ∃ w, h !! a = Some (ObjAdaptor
                                (SecureServiceAdaptor_init w
                                   (repository._secure_provider s)
                                   (repository._token_expiration_s s))) ∧
               resolved LOCATOR_SERVICE_NAME (repository.base s) n = Some w).

(** More worlds to run the code in: a clock before the epoch, a ticket
    service that refuses the request, and one whose channel breaks. *)
Definition pre_epoch_env : Env :=
  MkEnv (λ _, -5) (ticket_reply example_env) (rx_reply example_env)
    (other_fetch example_env) (invoke_reply example_env).

Definition refusing_env : Env :=
  MkEnv (clock example_env)
    (λ _ _ _ _, Raised (Exn "ServiceError" "connection refused"))
    (rx_reply example_env) (other_fetch example_env) (invoke_reply example_env).

Definition broken_channel_env : Env :=
  MkEnv (clock example_env) (ticket_reply example_env)
    (λ _ _, Raised (Exn "ChokeEvent" "channel closed"))
    (other_fetch example_env) (invoke_reply example_env).

(** * Properties *)

Ltac unfold_monad :=
  unfold mbind, M_bind, mret, M_ret, try_except, raise, gets, modify,
    in_world, lift_outcome in *.

(** * Token resolution and injection *)

Section Adaptor.

Variable env : Env.

(** A fetch reads no clock and logs its own entry first, then only
    requests to the ticket service. *)
Lemma fetch_token_shape p w :
  ∃ evs,
    reads (fetch_token env p w).2 = reads w ∧
    trace (fetch_token env p w).2 = trace w ++ EvFetchToken :: evs ∧
    Forall (λ ev, is_ticket_request ev = true) evs.
Proof.
  destruct p as [|[s|] cred|[s|] cred|id]; unfold fetch_token, ticket_call, rx_get;
    unfold_monad; simpl.
  - exists []. auto.
  - destruct (ticket_reply env _ s _ _) as [ch|e]; simpl.
    + destruct (rx_reply env _ ch) as [t|e]; simpl;
        (eexists [_; _]; split_and!; [done| by rewrite <- !app_assoc | by repeat constructor]).
    + eexists [_]; split_and!; [done| by rewrite <- !app_assoc | by repeat constructor].
  - exists []. auto.
  - destruct (ticket_reply env _ s _ _) as [ch|e]; simpl.
    + destruct (rx_reply env _ ch) as [t|e]; simpl;
        (eexists [_; _]; split_and!; [done| by rewrite <- !app_assoc | by repeat constructor]).
    + eexists [_]; split_and!; [done| by rewrite <- !app_assoc | by repeat constructor].
  - exists []. auto.
  - exists []. auto.
Qed.

Lemma fetch_token_reads p w : reads (fetch_token env p w).2 = reads w.
Proof. destruct (fetch_token_shape p w) as (evs & H & _). exact H. Qed.

Lemma filter_ticket_requests (P : event → bool) evs :
  (∀ ev, is_ticket_request ev = true → P ev = false) →
  Forall (λ ev, is_ticket_request ev = true) evs →
  filter P evs = [].
Proof.
  intros HP. induction 1 as [|ev evs Hev _ IH]; [done|].
  rewrite filter_cons, IH. specialize (HP ev Hev).
  destruct (decide (P ev)) as [H|H]; [|done]. rewrite HP in H. done.
Qed.

Lemma fetch_token_count p w :
  count_fetches (trace (fetch_token env p w).2) = S (count_fetches (trace w)).
Proof.
  destruct (fetch_token_shape p w) as (evs & _ & -> & Hevs).
  unfold count_fetches. rewrite filter_app, filter_cons. simpl.
  rewrite (filter_ticket_requests is_fetch evs); [|by intros []|done].
  rewrite length_app. simpl. lia.
Qed.

Lemma fetch_token_invocations p w :
  invocations (trace (fetch_token env p w).2) = invocations (trace w).
Proof.
  destruct (fetch_token_shape p w) as (evs & _ & -> & Hevs).
  unfold invocations. rewrite filter_app, filter_cons. simpl.
  rewrite (filter_ticket_requests is_invoke evs); [|by intros []|done].
  by rewrite app_nil_r.
Qed.

(** The three ways through [_get_token]. *)
Lemma get_token_valid st :
  ¬ due env st →
  _get_token env st = (Ok (_token (self st)), MkState (self st) (tick (world st))).
Proof.
  intros H. unfold _get_token, due, time_time in *. unfold_monad. simpl.
  rewrite bool_decide_eq_false_2; done.
Qed.

Lemma get_token_fetched st tok w' :
  due env st →
  fetch_token env (_secure (self st)) (tick (world st)) = (Ok tok, w') →
  _get_token env st =
    (Ok tok,
     MkState (MkAdaptor (_wrapped (self st)) (_secure (self st))
                (_token_expiration_s (self st)) tok
                (clock env (reads w') + _token_expiration_s (self st)))
       (tick w')).
Proof.
  intros H Hf. unfold _get_token, due, time_time, tick in *. unfold_monad. simpl.
  rewrite bool_decide_eq_true_2 by done. simpl. rewrite Hf. done.
Qed.

Lemma get_token_failed st e w' :
  due env st →
  fetch_token env (_secure (self st)) (tick (world st)) = (Raised e, w') →
  _get_token env st =
    (Raised (SecureServiceError ("failed to fetch secure token: " +:+ exn_str e)),
     MkState (self st) w').
Proof.
  intros H Hf. unfold _get_token, due, time_time, tick in *. unfold_monad. simpl.
  rewrite bool_decide_eq_true_2 by done. simpl. rewrite Hf. done.
Qed.

Lemma get_token_cases st :
  (¬ due env st ∧
   _get_token env st = (Ok (_token (self st)), MkState (self st) (tick (world st))))
  ∨ (due env st ∧ ∃ tok w',
       fetch_token env (_secure (self st)) (tick (world st)) = (Ok tok, w') ∧
       _get_token env st =
         (Ok tok,
          MkState (MkAdaptor (_wrapped (self st)) (_secure (self st))
                     (_token_expiration_s (self st)) tok
                     (clock env (reads w') + _token_expiration_s (self st)))
            (tick w')))
  ∨ (due env st ∧ ∃ e w',
       fetch_token env (_secure (self st)) (tick (world st)) = (Raised e, w') ∧
       _get_token env st =
         (Raised (SecureServiceError
                    ("failed to fetch secure token: " +:+ exn_str e)),
          MkState (self st) w')).
Proof.
  destruct (decide (due env st)) as [Hd|Hd].
  - destruct (fetch_token env (_secure (self st)) (tick (world st)))
      as [[tok|e] w'] eqn:Hf.
    + right; left. split; [done|]. exists tok, w'. eauto using get_token_fetched.
    + right; right. split; [done|]. exists e, w'. eauto using get_token_failed.
  - left. eauto using get_token_valid.
Qed.

Lemma get_token_returns_stored st tok st1 :
  _get_token env st = (Ok tok, st1) → tok = _token (self st1).
Proof.
  destruct (get_token_cases st) as [[_ H]|[(_ & ? & ? & _ & H)|(_ & ? & ? & _ & H)]];
    rewrite H; intros [= <- <-]; done.
Qed.

Lemma get_token_wrapped st :
  _wrapped (self (_get_token env st).2) = _wrapped (self st).
Proof.
  destruct (get_token_cases st) as [[_ H]|[(_ & ? & ? & _ & H)|(_ & ? & ? & _ & H)]];
    rewrite H; done.
Qed.

(** An intercepted call is token resolution followed, on success, by
    one call of the wrapped handle. *)
Lemma wrapper_ok name args kwargs st tok st1 :
  _get_token env st = (Ok tok, st1) →
  wrapper env name args kwargs st =
    (invoke_reply env (world st1) (_wrapped (self st1)) name args
       (<["authorization" := tok]> kwargs),
     MkState (self st1)
       (log (EvInvoke (_wrapped (self st1)) name args
               (<["authorization" := tok]> kwargs)) (world st1))).
Proof.
  intros H. unfold wrapper, invoke. unfold_monad. rewrite H. done.
Qed.

Lemma wrapper_raised name args kwargs st e st1 :
  _get_token env st = (Raised e, st1) →
  wrapper env name args kwargs st = (Raised e, st1).
Proof. intros H. unfold wrapper. unfold_monad. rewrite H. done. Qed.

Lemma wrapper_self name args kwargs st :
  self (wrapper env name args kwargs st).2 = self (_get_token env st).2.
Proof.
  destruct (_get_token env st) as [[tok|e] st1] eqn:H.
  - by rewrite (wrapper_ok _ _ _ _ _ _ H).
  - by rewrite (wrapper_raised _ _ _ _ _ _ H).
Qed.

Lemma count_fetches_log_invoke w wrapped name args kwargs :
  count_fetches (trace (log (EvInvoke wrapped name args kwargs) w))
  = count_fetches (trace w).
Proof.
  unfold count_fetches, log. simpl. rewrite filter_app, length_app. simpl. lia.
Qed.

Lemma wrapper_count name args kwargs st :
  count_fetches (trace (world (wrapper env name args kwargs st).2))
  = count_fetches (trace (world (_get_token env st).2)).
Proof.
  destruct (_get_token env st) as [[tok|e] st1] eqn:H.
  - rewrite (wrapper_ok _ _ _ _ _ _ H). apply count_fetches_log_invoke.
  - by rewrite (wrapper_raised _ _ _ _ _ _ H).
Qed.

(** Whether or not it succeeds, a due token costs exactly one fetch, and
    a token that is not due costs none. *)
Lemma get_token_count_due st :
  due env st →
  count_fetches (trace (world (_get_token env st).2))
  = S (count_fetches (trace (world st))).
Proof.
  intros Hd.
  destruct (get_token_cases st) as [[? _]|[(_ & ? & w' & Hf & H)|(_ & ? & w' & Hf & H)]];
    [done| |]; rewrite H; simpl;
    replace w' with (fetch_token env (_secure (self st)) (tick (world st))).2
      by (by rewrite Hf);
    by rewrite fetch_token_count.
Qed.

Lemma get_token_count_valid st :
  ¬ due env st →
  count_fetches (trace (world (_get_token env st).2))
  = count_fetches (trace (world st)).
Proof. intros Hd. by rewrite get_token_valid. Qed.

End Adaptor.

(** C2. When the token is due and the provider's fetch raises, the
    intercepted call raises [SecureServiceError] whose message carries
    the text of the cause after "failed to fetch secure token: ", the
    adaptor object is as before, and the wrapped handle has been invoked
    no more often than before the call. *)
Theorem fetch_failure_aborts_call env st name args kwargs e w' :
  due env st →
  fetch_token env (_secure (self st)) (tick (world st)) = (Raised e, w') →
  let err := SecureServiceError ("failed to fetch secure token: " +:+ exn_str e) in
  wrapper env name args kwargs st = (Raised err, MkState (self st) w') ∧
  exn_type err = "SecureServiceError" ∧
  invocations (trace w') = invocations (trace (world st)).
Proof.
  intros Hd Hf. split_and!.
  - apply wrapper_raised. by apply get_token_failed.
  - done.
  - replace w' with (fetch_token env (_secure (self st)) (tick (world st))).2
      by (by rewrite Hf).
    by rewrite fetch_token_invocations.
Qed.

Lemma fetch_failure_aborts_call_witness :
  let st := example_adaptor (OtherProvider 0) 0 in
  let w' := MkWorld 1 [EvFetchToken] in
  due example_env st ∧
  fetch_token example_env (_secure (self st)) (tick (world st))
    = (Raised (Exn "IOError" "ticket service unreachable"), w') ∧
  wrapper example_env "info" [VInt 1] ∅ st
    = (Raised (SecureServiceError
                 "failed to fetch secure token: ticket service unreachable"),
       MkState (self st) w') ∧
  invocations (trace w') = invocations (trace (world st)).
Proof.
  assert (Hd : due example_env (example_adaptor (OtherProvider 0) 0))
    by (vm_compute; discriminate).
  assert (Hf : fetch_token example_env
                 (_secure (self (example_adaptor (OtherProvider 0) 0)))
                 (tick (world (example_adaptor (OtherProvider 0) 0)))
               = (Raised (Exn "IOError" "ticket service unreachable"),
                  MkWorld 1 [EvFetchToken]))
    by reflexivity.
  pose proof (fetch_failure_aborts_call example_env _ "info" [VInt 1] ∅ _ _ Hd Hf)
    as (H1 & _ & H3).
  split_and!; [exact Hd | exact Hf | exact H1 | exact H3].
Defined.

(** C5. When token resolution succeeds with token [tok], the intercepted
    call [name(args, kwargs)] makes exactly one call of the wrapped
    handle: the method of the same name, the positional arguments as
    they were, and the keyword arguments with [authorization] bound to
    [tok], which is the token now stored; every other keyword is as the
    caller gave it, and when the caller gave no [authorization] the one
    binding is all that was added.  What the wrapped method returns or
    raises is what the caller gets. *)
Theorem injection_correct env st name args kwargs tok st1 :
  _get_token env st = (Ok tok, st1) →
  let wrapped := _wrapped (self st) in
  let forwarded := <["authorization" := tok]> kwargs in
  wrapper env name args kwargs st =
    (invoke_reply env (world st1) wrapped name args forwarded,
     MkState (self st1) (log (EvInvoke wrapped name args forwarded) (world st1))) ∧
  tok = _token (self st1) ∧
  forwarded !! "authorization" = Some tok ∧
  (∀ k, k ≠ "authorization" → forwarded !! k = kwargs !! k) ∧
  dom forwarded = {["authorization"]} ∪ dom kwargs ∧
  (kwargs !! "authorization" = None →
   delete "authorization" forwarded = kwargs ∧ size forwarded = S (size kwargs)).
Proof.
  intros H wrapped forwarded. split_and!.
  - rewrite (wrapper_ok _ _ _ _ _ _ _ H). subst wrapped.
    rewrite <- (get_token_wrapped env st), H. done.
  - by apply (get_token_returns_stored env st).
  - apply lookup_insert_eq.
  - intros k Hk. by apply lookup_insert_ne.
  - apply dom_insert_L.
  - intros Hn. split.
    + subst forwarded. rewrite delete_insert_eq. by apply delete_id.
    + by apply map_size_insert_None.
Qed.

Lemma injection_correct_witness :
  let st := example_adaptor (TVM (Some 2%nat) example_credentials) 30 in
  let st1 := (_get_token example_env st).2 in
  let kwargs : gmap string value := {["timeout" := VInt 5]} in
  let forwarded : gmap string value :=
    <["authorization" := VStr "TVM abc"]> kwargs in
  _get_token example_env st = (Ok (VStr "TVM abc"), st1) ∧
  wrapper example_env "info" [VInt 1; VStr "b"] kwargs st =
    (Ok 9%nat,
     MkState (self st1)
       (log (EvInvoke 1%nat "info" [VInt 1; VStr "b"] forwarded) (world st1))).
Proof.
  assert (H : _get_token example_env
                (example_adaptor (TVM (Some 2%nat) example_credentials) 30)
              = (Ok (VStr "TVM abc"),
                 (_get_token example_env
                    (example_adaptor (TVM (Some 2%nat) example_credentials) 30)).2))
    by reflexivity.
  split; [exact H|].
  exact (proj1 (injection_correct example_env _ "info" [VInt 1; VStr "b"]
                  {["timeout" := VInt 5]} _ _ H)).
Defined.

(** C7. Whenever token resolution raises, the adaptor object, and with
    it the stored token and the stored expiry, is exactly as it was
    before the call, and the intercepted call ends with that error in
    that state. *)
Theorem failed_refresh_keeps_state env st e st' :
  _get_token env st = (Raised e, st') →
  self st' = self st ∧
  _token (self st') = _token (self st) ∧
  _to_expire (self st') = _to_expire (self st) ∧
  ∀ name args kwargs, wrapper env name args kwargs st = (Raised e, st').
Proof.
  intros H.
  assert (Hs : self st' = self st).
  { destruct (get_token_cases env st)
      as [[_ H']|[(_ & ? & ? & _ & H')|(_ & ? & ? & _ & H')]];
      rewrite H' in H; [done|done|]. by injection H as _ <-. }
  rewrite Hs. split_and!; [done..|].
  intros. by apply wrapper_raised.
Qed.

Lemma failed_refresh_keeps_state_witness :
  let st0 := example_adaptor (OtherProvider 0) 1 in
  let st1 := (wrapper flaky_env "info" [] ∅ st0).2 in
  let r := _get_token flaky_env st1 in
  _token (self st1) = VStr "tok1" ∧
  r = (Raised (SecureServiceError
                 "failed to fetch secure token: ticket service unreachable"), r.2) ∧
  self r.2 = self st1 ∧
  _token (self r.2) = VStr "tok1" ∧
  _to_expire (self r.2) = 102.
Proof.
  assert (H : _get_token flaky_env
                (wrapper flaky_env "info" [] ∅ (example_adaptor (OtherProvider 0) 1)).2
              = (Raised (SecureServiceError
                   "failed to fetch secure token: ticket service unreachable"),
                 (_get_token flaky_env
                    (wrapper flaky_env "info" [] ∅
                       (example_adaptor (OtherProvider 0) 1)).2).2))
    by reflexivity.
  pose proof (failed_refresh_keeps_state flaky_env _ _ _ H) as (H1 & H2 & H3 & _).
  split_and!; [reflexivity | exact H | exact H1 | | ].
  - etrans; [exact H2 | reflexivity].
  - etrans; [exact H3 | reflexivity].
Defined.

(** C10. An [authorization] keyword given by the caller has no effect:
    the call behaves exactly as if the caller had not given it, and what
    reaches the wrapped handle under that keyword is the adaptor's
    token. *)
Theorem caller_authorization_overwritten env st name args kwargs v :
  wrapper env name args (<["authorization" := v]> kwargs) st
  = wrapper env name args kwargs st ∧
  match _get_token env st with
  | (Ok tok, st1) =>
      trace (world (wrapper env name args (<["authorization" := v]> kwargs) st).2)
      = trace (world st1) ++
         [EvInvoke (_wrapped (self st)) name args
            (<["authorization" := tok]> (delete "authorization" kwargs))]
  | (Raised _, st1) =>
      trace (world (wrapper env name args (<["authorization" := v]> kwargs) st).2)
      = trace (world st1)
  end.
Proof.
  split.
  - unfold wrapper. unfold_monad.
    destruct (_get_token env st) as [[tok|e] st1]; [|done].
    by rewrite insert_insert_eq.
  - destruct (_get_token env st) as [[tok|e] st1] eqn:H.
    + rewrite (wrapper_ok _ _ _ _ _ _ _ H). simpl.
      rewrite insert_insert_eq, insert_delete_eq.
      rewrite <- (get_token_wrapped env st), H. done.
    + by rewrite (wrapper_raised _ _ _ _ _ _ _ H).
Qed.

(** C4 as stated fails: a call made at time 100 with interval 30 whose
    fetch takes three seconds stores expiry 133, not 130, and the call
    at time 131, one past 100 + 30, fetches nothing. *)
Lemma slow_fetch_shifts_expiry :
  let st0 := example_adaptor Promiscuous 30 in
  let st1 := (wrapper slow_fetch_env "info" [] ∅ st0).2 in
  clock slow_fetch_env (reads (world st0)) = 100 ∧
  count_fetches (trace (world st1)) = 1%nat ∧
  ¬ stores_expiry_from_call_time slow_fetch_env st0 "info" [] ∅ ∧
  clock slow_fetch_env (reads (world st1)) = 100 + 30 + 1 ∧
  count_fetches (trace (world (wrapper slow_fetch_env "info" [] ∅ st1).2))
  = count_fetches (trace (world st1)).
Proof.
  split_and!; try reflexivity.
  intros H. vm_compute in H. discriminate H.
Qed.

(** C4, amended. With expiration interval [T]: (1) a call that reads
    the clock at [t0], finds the token due, fetches successfully and
    reads the clock again at [t1], when the fetch has completed, stores
    the fetched token and the expiry [t1 + T], at the cost of one fetch
    ([t1] is [t0] only when the clock does not advance during the
    fetch); (2) a call at time [t1 + T - 1] on an adaptor with expiry
    [t1 + T] leaves the adaptor as it is, fetches nothing and forwards
    the stored token; (3) a call at time [t1 + T + 1] on such an adaptor
    costs exactly one fetch; (4) a new adaptor has expiry 0, so its
    first call, at any time [t0 ≥ 0], costs one fetch. *)
Theorem expiration_cycle env name args kwargs (t0 t1 : Z) :
  (∀ st tok w',
     clock env (reads (world st)) = t0 →
     clock env (S (reads (world st))) = t1 →
     _to_expire (self st) ≤ t0 →
     fetch_token env (_secure (self st)) (tick (world st)) = (Ok tok, w') →
     let st' := (wrapper env name args kwargs st).2 in
     _token (self st') = tok ∧
     _to_expire (self st') = t1 + _token_expiration_s (self st) ∧
     _token_expiration_s (self st') = _token_expiration_s (self st) ∧
     count_fetches (trace (world st')) = S (count_fetches (trace (world st)))) ∧
  (∀ st,
     _to_expire (self st) = t1 + _token_expiration_s (self st) →
     clock env (reads (world st)) = t1 + _token_expiration_s (self st) - 1 →
     let st' := (wrapper env name args kwargs st).2 in
     self st' = self st ∧
     count_fetches (trace (world st')) = count_fetches (trace (world st)) ∧
     trace (world st') =
       trace (world st) ++
        [EvInvoke (_wrapped (self st)) name args
           (<["authorization" := _token (self st)]> kwargs)]) ∧
  (∀ st,
     _to_expire (self st) = t1 + _token_expiration_s (self st) →
     clock env (reads (world st)) = t1 + _token_expiration_s (self st) + 1 →
     let st' := (wrapper env name args kwargs st).2 in
     count_fetches (trace (world st')) = S (count_fetches (trace (world st)))) ∧
  (∀ wrapped secure interval w,
     clock env (reads w) = t0 → 0 ≤ t0 →
     let st := MkState (SecureServiceAdaptor_init wrapped secure interval) w in
     _to_expire (self st) = 0 ∧
     count_fetches (trace (world (wrapper env name args kwargs st).2))
     = S (count_fetches (trace w))).
Proof.
  split_and!.
  - intros st tok w' Hc Hc' Hle Hf st'.
    assert (Hd : due env st) by (unfold due; lia).
    pose proof (get_token_fetched env st tok w' Hd Hf) as Hg.
    assert (Hr : reads w' = S (reads (world st))).
    { replace w' with (fetch_token env (_secure (self st)) (tick (world st))).2
        by (by rewrite Hf). by rewrite fetch_token_reads. }
    subst st'. rewrite wrapper_self, wrapper_count, get_token_count_due by done.
    rewrite Hg. simpl. rewrite Hr, Hc'. done.
  - intros st He Hc st'.
    assert (Hd : ¬ due env st) by (unfold due; lia).
    pose proof (get_token_valid env st Hd) as Hg.
    subst st'. rewrite wrapper_self, wrapper_count, get_token_count_valid by done.
    rewrite (wrapper_ok _ _ _ _ _ _ _ Hg), Hg. done.
  - intros st He Hc st'.
    assert (Hd : due env st) by (unfold due; lia).
    subst st'. by rewrite wrapper_count, get_token_count_due.
  - intros wrapped secure interval w Hc Hle st. split; [done|].
    assert (Hd : due env st) by (unfold due; simpl; lia).
    by rewrite wrapper_count, get_token_count_due.
Qed.

(** The cycle under the slow clock: the call at 100 completes its fetch
    at 103 and stores 133; the calls at 131 and at 132 = 133 - 1 reuse
    the token; the call at 134 = 133 + 1 fetches again. *)
Lemma expiration_cycle_witness :
  let st0 := example_adaptor Promiscuous 30 in
  let st1 := (wrapper slow_fetch_env "info" [] ∅ st0).2 in
  let st2 := (wrapper slow_fetch_env "info" [] ∅ st1).2 in
  let st3 := (wrapper slow_fetch_env "info" [] ∅ st2).2 in
  let st4 := (wrapper slow_fetch_env "info" [] ∅ st3).2 in
  (_to_expire (self st0) = 0 ∧ count_fetches (trace (world st1)) = 1%nat) ∧
  (_token (self st1) = VStr "" ∧ _to_expire (self st1) = 103 + 30) ∧
  (self st3 = self st2 ∧ count_fetches (trace (world st3)) = 1%nat) ∧
  count_fetches (trace (world st4)) = 2%nat.
Proof.
  pose proof (expiration_cycle slow_fetch_env "info" [] ∅ 100 103)
    as (H1 & H2 & H3 & H4).
  split_and!.
  - exact (proj1 (H4 1%nat Promiscuous 30 example_world eq_refl ltac:(lia))).
  - exact (proj2 (H4 1%nat Promiscuous 30 example_world eq_refl ltac:(lia))).
  - exact (proj1 (H1 (example_adaptor Promiscuous 30) (VStr "")
                    (MkWorld 1 [EvFetchToken]) eq_refl eq_refl
                    ltac:(simpl; lia) eq_refl)).
  - exact (proj1 (proj2 (H1 (example_adaptor Promiscuous 30) (VStr "")
                    (MkWorld 1 [EvFetchToken]) eq_refl eq_refl
                    ltac:(simpl; lia) eq_refl))).
  - exact (proj1 (H2 (wrapper slow_fetch_env "info" [] ∅
                        (wrapper slow_fetch_env "info" [] ∅
                           (example_adaptor Promiscuous 30)).2).2
                    eq_refl eq_refl)).
  - exact (proj1 (proj2 (H2 (wrapper slow_fetch_env "info" [] ∅
                        (wrapper slow_fetch_env "info" [] ∅
                           (example_adaptor Promiscuous 30)).2).2
                    eq_refl eq_refl))).
  - exact (H3 (wrapper slow_fetch_env "info" [] ∅
                 (wrapper slow_fetch_env "info" [] ∅
                    (wrapper slow_fetch_env "info" [] ∅
                       (example_adaptor Promiscuous 30)).2).2).2
             eq_refl eq_refl).
Defined.

(** * Interval 0 *)

Lemma monotone_clock_le env n m :
  monotone_clock env → (n ≤ m)%nat → clock env n ≤ clock env m.
Proof.
  intros Hm Hle. induction Hle as [|m _ IH]; [done|].
  specialize (Hm m). lia.
Qed.

(** With interval 0 and a clock that does not run backwards, a due
    token is due again after the call, whatever the call did. *)
Lemma zero_interval_step env name args kwargs st :
  monotone_clock env →
  _token_expiration_s (self st) = 0 →
  due env st →
  let st' := (wrapper env name args kwargs st).2 in
  _token_expiration_s (self st') = 0 ∧ due env st' ∧
  count_fetches (trace (world st')) = S (count_fetches (trace (world st))).
Proof.
  intros Hm HT Hd st'. subst st'.
  rewrite wrapper_count, get_token_count_due by done.
  split_and!; [| |done].
  - rewrite wrapper_self.
    destruct (get_token_cases env st)
      as [[? _]|[(_ & ? & ? & _ & H)|(_ & ? & ? & _ & H)]]; [done| |];
      by rewrite H.
  - unfold due in *.
    destruct (get_token_cases env st)
      as [[? _]|[(_ & tok & w' & Hf & H)|(_ & e & w' & Hf & H)]]; [done| |].
    + rewrite (wrapper_ok _ _ _ _ _ _ _ H). simpl. rewrite HT.
      specialize (Hm (reads w')). lia.
    + rewrite (wrapper_raised _ _ _ _ _ _ _ H). simpl.
      assert (Hr : reads w' = S (reads (world st))).
      { replace w' with (fetch_token env (_secure (self st)) (tick (world st))).2
          by (by rewrite Hf). by rewrite fetch_token_reads. }
      rewrite Hr. specialize (Hm (reads (world st))). lia.
Qed.

Lemma zero_interval_calls env calls : ∀ st,
  monotone_clock env →
  _token_expiration_s (self st) = 0 →
  due env st →
  count_fetches (trace (world (call_all env calls st).2))
  = (count_fetches (trace (world st)) + length calls)%nat.
Proof.
  induction calls as [|c calls IH]; intros st Hm HT Hd; simpl.
  - lia.
  - pose proof (zero_interval_step env (call_name c) (call_args c)
                  (call_kwargs c) st Hm HT Hd) as (HT' & Hd' & Hc).
    destruct (wrapper env (call_name c) (call_args c) (call_kwargs c) st)
      as [r st1]. simpl in *.
    specialize (IH st1 Hm HT' Hd').
    destruct (call_all env calls st1) as [rs st2]. simpl in *. lia.
Qed.

(** C1 as stated fails: with interval 0 the first call fetches a token
    successfully, and the second call fetches again. *)
Lemma zero_interval_refetches :
  let st := example_adaptor Promiscuous 0 in
  (_get_token example_env st).1 = Ok (VStr "") ∧
  ¬ fetched_once example_env st [example_call; example_call].
Proof.
  split; [reflexivity|].
  intros H. vm_compute in H. discriminate H.
Qed.

(** C1, amended. For an adaptor built with interval 0, under a clock
    that reads at least 0 and never runs backwards, each intercepted
    call invokes the provider's fetch exactly once, the first call as
    well as every later one: [n] calls cost [n] fetches, whether the
    fetches succeed or not. *)
Theorem zero_interval_fetches_every_call env wrapped secure w calls :
  monotone_clock env →
  0 ≤ clock env (reads w) →
  let st := MkState (SecureServiceAdaptor_init wrapped secure 0) w in
  count_fetches (trace (world (call_all env calls st).2))
  = (count_fetches (trace w) + length calls)%nat.
Proof.
  intros Hm H0 st. by apply (zero_interval_calls env calls st).
Qed.

Lemma zero_interval_fetches_every_call_witness :
  monotone_clock example_env ∧
  0 ≤ clock example_env (reads example_world) ∧
  count_fetches
    (trace (world (call_all example_env [example_call; example_call; example_call]
                     (example_adaptor Promiscuous 0)).2))
  = 3%nat.
Proof.
  assert (Hm : monotone_clock example_env) by (intros n; simpl; lia).
  assert (H0 : 0 ≤ clock example_env (reads example_world)) by (simpl; lia).
  split_and!; [exact Hm | exact H0 |].
  exact (zero_interval_fetches_every_call example_env 1%nat Promiscuous
           example_world [example_call; example_call; example_call] Hm H0).
Defined.

(** * Providers and their selection *)

(** C8. When the ticket service answers the request of [TVM] with a
    channel that yields [ticket], the fetch yields ["TVM "] followed by
    the ticket; likewise [TVM2] yields ["TVM2 "] followed by the ticket;
    [Promiscuous] yields the empty string and asks nobody.  A ticket
    that is a string is printed as itself. *)
Theorem token_formats env w :
  (∀ service cred ch ticket w1 w2,
     ticket_call env (Some service) "ticket_full"
       [client_id cred; client_secret cred; VStr "client_credentials"; VDictEmpty]
       (log EvFetchToken w) = (Ok ch, w1) →
     rx_get env ch w1 = (Ok ticket, w2) →
     fetch_token env (TVM (Some service) cred) w
     = (Ok (VStr ("TVM " +:+ py_format ticket)), w2)) ∧
  (∀ service cred ch ticket w1 w2,
     ticket_call env (Some service) "ticket"
       [client_id cred; client_secret cred] (log EvFetchToken w) = (Ok ch, w1) →
     rx_get env ch w1 = (Ok ticket, w2) →
     fetch_token env (TVM2 (Some service) cred) w
     = (Ok (VStr ("TVM2 " +:+ py_format ticket)), w2)) ∧
  fetch_token env Promiscuous w = (Ok (VStr ""), log EvFetchToken w) ∧
  (∀ t, py_format (VStr t) = t).
Proof.
  split_and!; [| |done|done].
  - intros service cred ch ticket w1 w2 H1 H2.
    unfold fetch_token, mbind, M_bind, modify. cbv beta iota.
    rewrite H1, H2. done.
  - intros service cred ch ticket w1 w2 H1 H2.
    unfold fetch_token, mbind, M_bind, modify. cbv beta iota.
    rewrite H1, H2. done.
Qed.

Lemma token_formats_witness :
  (fetch_token example_env (TVM (Some 2%nat) example_credentials) example_world).1
  = Ok (VStr "TVM abc") ∧
  (fetch_token example_env (TVM2 (Some 3%nat) example_credentials) example_world).1
  = Ok (VStr "TVM2 xyz").
Proof.
  pose proof (token_formats example_env example_world) as (H1 & H2 & _).
  split.
  - exact (f_equal fst (H1 2%nat example_credentials 7%nat (VStr "abc") _ _
                          eq_refl eq_refl)).
  - exact (f_equal fst (H2 3%nat example_credentials 8%nat (VStr "xyz") _ _
                          eq_refl eq_refl)).
Defined.

(** An adaptor that holds [Promiscuous] keeps it and never contacts a
    ticket service, whatever is called through it. *)
Lemma promiscuous_step env name args kwargs st :
  _secure (self st) = Promiscuous →
  let st' := (wrapper env name args kwargs st).2 in
  _secure (self st') = Promiscuous ∧
  ticket_requests (trace (world st')) = ticket_requests (trace (world st)).
Proof.
  intros Hs st'. subst st'.
  destruct (get_token_cases env st)
    as [[_ H]|[(_ & tok & w' & Hf & H)|(_ & e & w' & Hf & H)]].
  - rewrite (wrapper_ok _ _ _ _ _ _ _ H). simpl. split; [done|].
    unfold ticket_requests. by rewrite filter_app, app_nil_r.
  - rewrite Hs in Hf. injection Hf as <- <-.
    rewrite (wrapper_ok _ _ _ _ _ _ _ H). simpl. split; [done|].
    unfold ticket_requests. by rewrite !filter_app, !app_nil_r.
  - by rewrite Hs in Hf.
Qed.

Lemma promiscuous_calls env calls : ∀ st,
  _secure (self st) = Promiscuous →
  ticket_requests (trace (world (call_all env calls st).2))
  = ticket_requests (trace (world st)).
Proof.
  induction calls as [|c calls IH]; intros st Hs; simpl; [done|].
  pose proof (promiscuous_step env (call_name c) (call_args c) (call_kwargs c)
                st Hs) as [Hs' Ht].
  destruct (wrapper env (call_name c) (call_args c) (call_kwargs c) st)
    as [r st1]. simpl in *.
  specialize (IH st1 Hs').
  destruct (call_all env calls st1) as [rs st2]. simpl in *. congruence.
Qed.

(** C9. For a mode other than ["TVM"] and ["TVM2"]: no ticket service
    is constructed, the provider selected is [Promiscuous] whatever the
    other arguments, both ways of building an adaptor or a repository
    succeed and allocate no [Service], a fetch of that provider yields the
    empty string, token resolution through an adaptor holding it yields
    the empty string, and no sequence of calls through an adaptor built
    with it sends a request to a ticket service. *)
Theorem unknown_mode_is_promiscuous (mod_ : string) :
  mod_ ≠ TVM_TYPE → mod_ ≠ TVM2_TYPE →
  (∀ defaults endpoints h,
     create_ticket_service defaults mod_ endpoints h = (Ok None, h)) ∧
  (∀ ticket_service kwargs,
     create_secure_provider mod_ ticket_service kwargs = Ok Promiscuous) ∧
  (∀ defaults service endpoints interval kwargs h o,
     h !! service = Some o → is_handle o = true →
     kwargs !! "ticket_service" = None →
     make_secure_adaptor defaults service endpoints mod_ interval kwargs h
     = (Ok (length h),
        h ++ [ObjAdaptor (SecureServiceAdaptor_init service Promiscuous interval)])) ∧
  (∀ defaults endpoints interval kwargs h,
     kwargs !! "ticket_service" = None →
     repository.SecureServiceRepository_init defaults endpoints mod_ interval kwargs h
     = (Ok (repository.MkSecureServiceRepository
              (repository.MkServiceRepository (length h) ∅) interval Promiscuous ∅),
        h ++ [ObjLocator (default defaults endpoints)])) ∧
  (∀ env w, fetch_token env Promiscuous w = (Ok (VStr ""), log EvFetchToken w)) ∧
  (∀ env st,
     _secure (self st) = Promiscuous → due env st →
     (_get_token env st).1 = Ok (VStr "") ∧
     ticket_requests (trace (world (_get_token env st).2))
     = ticket_requests (trace (world st))) ∧
  (∀ env wrapped interval w calls,
     let st := MkState (SecureServiceAdaptor_init wrapped Promiscuous interval) w in
     ticket_requests (trace (world (call_all env calls st).2))
     = ticket_requests (trace w)).
Proof.
  intros H1 H2.
  assert (Hts : ∀ defaults endpoints h,
            create_ticket_service defaults mod_ endpoints h = (Ok None, h)).
  { intros. unfold create_ticket_service.
    rewrite !bool_decide_eq_false_2 by done. done. }
  assert (Hp : ∀ ticket_service kwargs,
            create_secure_provider mod_ ticket_service kwargs = Ok Promiscuous).
  { intros. unfold create_secure_provider.
    rewrite !bool_decide_eq_false_2 by done. done. }
  split_and!; [done|done| | |done| |].
  - intros defaults service endpoints interval kwargs h o Ho Hh Hk.
    unfold make_secure_adaptor, mbind, M_bind. cbv beta.
    assert (He : ∃ eps,
              (match endpoints with
               | Some (e :: eps) => mret (e :: eps)
               | _ => get_endpoints service
               end) h = (Ok eps, h)).
    { destruct endpoints as [[|e eps]|]; [|by eexists|];
        unfold get_endpoints; rewrite Ho; destruct o; try done; by eexists. }
    destruct He as [eps He]. rewrite He, Hts.
    unfold lift_outcome, call_create_secure_provider. rewrite Hk, Hp. done.
  - intros defaults endpoints interval kwargs h Hk.
    unfold repository.SecureServiceRepository_init,
      repository.ServiceRepository_init, Locator, new, mbind, M_bind.
    cbv beta iota. unfold mret at 1, M_ret at 1. cbv beta iota.
    rewrite Hts. unfold lift_outcome, call_create_secure_provider.
    rewrite Hk, Hp. done.
  - intros env st Hs Hd.
    assert (Hf : fetch_token env (_secure (self st)) (tick (world st))
                 = (Ok (VStr ""), log EvFetchToken (tick (world st))))
      by (by rewrite Hs).
    rewrite (get_token_fetched env st _ _ Hd Hf). simpl.
    unfold ticket_requests. by rewrite filter_app, app_nil_r.
  - intros env wrapped interval w calls st.
    by apply (promiscuous_calls env calls st).
Qed.

Lemma unknown_mode_is_promiscuous_witness :
  "bogus" ≠ TVM_TYPE ∧ "bogus" ≠ TVM2_TYPE ∧
  create_ticket_service example_endpoints "bogus" example_endpoints example_heap
  = (Ok None, example_heap) ∧
  create_secure_provider "bogus" None ∅ = Ok Promiscuous ∧
  make_secure_adaptor example_endpoints 1%nat None "bogus" 0 ∅ example_heap
  = (Ok 2%nat,
     example_heap ++ [ObjAdaptor (SecureServiceAdaptor_init 1%nat Promiscuous 0)]).
Proof.
  assert (H1 : "bogus" ≠ TVM_TYPE) by (vm_compute; discriminate).
  assert (H2 : "bogus" ≠ TVM2_TYPE) by (vm_compute; discriminate).
  pose proof (unknown_mode_is_promiscuous "bogus" H1 H2) as (Ha & Hb & Hc & _).
  split_and!; [exact H1 | exact H2 | apply Ha | apply Hb |].
  exact (Hc example_endpoints 1%nat None 0 ∅ example_heap
           (ObjService "node" example_endpoints (Some 0%nat)) eq_refl eq_refl
           eq_refl).
Defined.

(** * More on the adaptor *)

(** X1. An intercepted call costs one fetch when the clock reads the
    stored expiry or later (the bound included), and none when it reads
    less, whatever the provider answers. *)
Theorem fetch_iff_due env name args kwargs st :
  count_fetches (trace (world (wrapper env name args kwargs st).2))
  = (count_fetches (trace (world st)) + (if decide (due env st) then 1 else 0))%nat.
Proof.
  rewrite wrapper_count. case_decide.
  - rewrite get_token_count_due by done. lia.
  - rewrite get_token_count_valid by done. lia.
Qed.

(** X2. After a successful renewal the stored expiry is the interval
    past the clock reading taken when the fetch had completed, the
    second reading of the call, not the reading that found the token
    due; the call reads the clock exactly twice. *)
Theorem expiry_counts_from_fetch_completion env name args kwargs st tok w' :
  due env st →
  fetch_token env (_secure (self st)) (tick (world st)) = (Ok tok, w') →
  let st' := (wrapper env name args kwargs st).2 in
  _to_expire (self st')
  = clock env (S (reads (world st))) + _token_expiration_s (self st) ∧
  _token (self st') = tok ∧
  reads (world st') = S (S (reads (world st))).
Proof.
  intros Hd Hf st'.
  assert (Hr : reads w' = S (reads (world st))).
  { replace w' with (fetch_token env (_secure (self st)) (tick (world st))).2
      by (by rewrite Hf). by rewrite fetch_token_reads. }
  subst st'.
  rewrite (wrapper_ok _ _ _ _ _ _ _ (get_token_fetched env st tok w' Hd Hf)).
  simpl. by rewrite Hr.
Qed.

Lemma expiry_counts_from_fetch_completion_witness :
  let st := example_adaptor Promiscuous 30 in
  due example_env st ∧
  _to_expire (self (wrapper example_env "info" [] ∅ st).2) = 101 + 30.
Proof.
  assert (Hd : due example_env (example_adaptor Promiscuous 30))
    by (vm_compute; discriminate).
  split; [exact Hd|].
  exact (proj1 (expiry_counts_from_fetch_completion example_env "info" [] ∅
                  (example_adaptor Promiscuous 30) (VStr "")
                  (MkWorld 1 [EvFetchToken]) Hd eq_refl)).
Defined.

(** X3. No back-off: under a clock that does not run backwards, a call
    whose renewal failed leaves the token due, so the next call tries
    the provider again, at the cost of one more fetch. *)
Theorem failed_fetch_is_retried env name args kwargs st e w' :
  monotone_clock env →
  due env st →
  fetch_token env (_secure (self st)) (tick (world st)) = (Raised e, w') →
  let st' := (wrapper env name args kwargs st).2 in
  due env st' ∧
  ∀ name' args' kwargs',
    count_fetches (trace (world (wrapper env name' args' kwargs' st').2))
    = S (S (count_fetches (trace (world st)))).
Proof.
  intros Hm Hd Hf st'.
  assert (Hr : reads w' = S (reads (world st))).
  { replace w' with (fetch_token env (_secure (self st)) (tick (world st))).2
      by (by rewrite Hf). by rewrite fetch_token_reads. }
  assert (Hst : st' = MkState (self st) w').
  { subst st'.
    by rewrite (wrapper_raised _ _ _ _ _ _ _ (get_token_failed env st e w' Hd Hf)). }
  assert (Hd' : due env st').
  { rewrite Hst. unfold due in *. simpl. rewrite Hr.
    specialize (Hm (reads (world st))). lia. }
  split; [done|]. intros.
  rewrite wrapper_count, get_token_count_due by done.
  subst st'. by rewrite wrapper_count, get_token_count_due.
Qed.

Lemma failed_fetch_is_retried_witness :
  let st := example_adaptor (OtherProvider 0) 30 in
  let st' := (wrapper example_env "info" [] ∅ st).2 in
  monotone_clock example_env ∧ due example_env st ∧ due example_env st' ∧
  count_fetches (trace (world (wrapper example_env "info" [] ∅ st').2)) = 2%nat.
Proof.
  assert (Hm : monotone_clock example_env) by (intros n; simpl; lia).
  assert (Hd : due example_env (example_adaptor (OtherProvider 0) 30))
    by (vm_compute; discriminate).
  pose proof (failed_fetch_is_retried example_env "info" [] ∅
                (example_adaptor (OtherProvider 0) 30)
                (Exn "IOError" "ticket service unreachable")
                (MkWorld 1 [EvFetchToken]) Hm Hd eq_refl) as [H1 H2].
  split_and!; [exact Hm | exact Hd | exact H1 | exact (H2 "info" [] ∅)].
Defined.

(** X4. A provider built without a ticket service, as
    [create_secure_provider] builds it when its second argument is left
    out, cannot fetch: every call that finds the token due raises
    [SecureServiceError] about the missing attribute of [None], sends
    nothing and leaves the adaptor as it was. *)
Theorem provider_without_ticket_service env name args kwargs st cred :
  due env st →
  (_secure (self st) = TVM None cred →
   wrapper env name args kwargs st =
     (Raised (SecureServiceError
                "failed to fetch secure token: 'NoneType' object has no attribute 'ticket_full'"),
      MkState (self st) (log EvFetchToken (tick (world st))))) ∧
  (_secure (self st) = TVM2 None cred →
   wrapper env name args kwargs st =
     (Raised (SecureServiceError
                "failed to fetch secure token: 'NoneType' object has no attribute 'ticket'"),
      MkState (self st) (log EvFetchToken (tick (world st))))) ∧
  (∀ kwargs',
     Credentials_new kwargs' = Ok cred →
     create_secure_provider TVM_TYPE None kwargs' = Ok (TVM None cred) ∧
     create_secure_provider TVM2_TYPE None kwargs' = Ok (TVM2 None cred)).
Proof.
  intros Hd. split_and!.
  - intros Hs. apply wrapper_raised.
    rewrite (get_token_failed env st
               (Exn "AttributeError" "'NoneType' object has no attribute 'ticket_full'")
               (log EvFetchToken (tick (world st)))); [done|done|].
    by rewrite Hs.
  - intros Hs. apply wrapper_raised.
    rewrite (get_token_failed env st
               (Exn "AttributeError" "'NoneType' object has no attribute 'ticket'")
               (log EvFetchToken (tick (world st)))); [done|done|].
    by rewrite Hs.
  - intros kwargs' Hc. unfold create_secure_provider. rewrite Hc. done.
Qed.

Lemma provider_without_ticket_service_witness :
  let st := example_adaptor (TVM None example_credentials) 30 in
  due example_env st ∧
  wrapper example_env "info" [] ∅ st =
    (Raised (SecureServiceError
               "failed to fetch secure token: 'NoneType' object has no attribute 'ticket_full'"),
     MkState (self st) (log EvFetchToken (tick (world st)))) ∧
  create_secure_provider TVM_TYPE None (credentials_kwargs example_credentials)
  = Ok (TVM None example_credentials).
Proof.
  assert (Hd : due example_env (example_adaptor (TVM None example_credentials) 30))
    by (vm_compute; discriminate).
  pose proof (provider_without_ticket_service example_env "info" [] ∅
                (example_adaptor (TVM None example_credentials) 30)
                example_credentials Hd) as (H1 & _ & H3).
  split_and!; [exact Hd | exact (H1 eq_refl) |].
  exact (proj1 (H3 (credentials_kwargs example_credentials) eq_refl)).
Defined.

(** X5. When the ticket service refuses the request of [TVM] or [TVM2],
    the provider asks for no ticket on any channel and the caller of the
    adaptor gets [SecureServiceError] with the text of the refusal; when
    the request is accepted and the channel breaks, likewise after the
    one read of the channel.  The wrapped handle is not called and the
    adaptor is as before. *)
Theorem ticket_service_failure env name args kwargs st service method targs e :
  due env st →
  ticket_request (_secure (self st)) = Some (service, method, targs) →
  let w1 := log EvFetchToken (tick (world st)) in
  let w2 := log (EvTicketCall service method targs) w1 in
  let err := SecureServiceError ("failed to fetch secure token: " +:+ exn_str e) in
  (ticket_reply env w1 service method targs = Raised e →
   wrapper env name args kwargs st = (Raised err, MkState (self st) w2)) ∧
  (∀ ch,
     ticket_reply env w1 service method targs = Ok ch →
     rx_reply env w2 ch = Raised e →
     wrapper env name args kwargs st
     = (Raised err, MkState (self st) (log (EvRxGet ch) w2))).
Proof.
  intros Hd Hp w1 w2 err. split.
  - intros Hr. apply wrapper_raised. apply get_token_failed; [done|].
    destruct (_secure (self st)) as [|[s|] cred|[s|] cred|id]; simplify_eq/=;
      unfold fetch_token, ticket_call, mbind, M_bind, modify; cbv beta iota;
      fold w1; by rewrite Hr.
  - intros ch Hr Hx. apply wrapper_raised. apply get_token_failed; [done|].
    destruct (_secure (self st)) as [|[s|] cred|[s|] cred|id]; simplify_eq/=;
      unfold fetch_token, ticket_call, rx_get, mbind, M_bind, modify;
      cbv beta iota; fold w1; rewrite Hr; cbv beta iota; fold w2; by rewrite Hx.
Qed.

Lemma ticket_service_failure_witness :
  let st := example_adaptor (TVM2 (Some 2%nat) example_credentials) 30 in
  let targs := [VStr "id"; VStr "secret"] in
  due refusing_env st ∧
  wrapper refusing_env "info" [] ∅ st =
    (Raised (SecureServiceError "failed to fetch secure token: connection refused"),
     MkState (self st)
       (log (EvTicketCall 2%nat "ticket" targs)
          (log EvFetchToken (tick (world st))))) ∧
  wrapper broken_channel_env "info" [] ∅ st =
    (Raised (SecureServiceError "failed to fetch secure token: channel closed"),
     MkState (self st)
       (log (EvRxGet 8%nat)
          (log (EvTicketCall 2%nat "ticket" targs)
             (log EvFetchToken (tick (world st)))))).
Proof.
  assert (Hd : due refusing_env
                 (example_adaptor (TVM2 (Some 2%nat) example_credentials) 30))
    by (vm_compute; discriminate).
  assert (Hd' : due broken_channel_env
                 (example_adaptor (TVM2 (Some 2%nat) example_credentials) 30))
    by (vm_compute; discriminate).
  split_and!; [exact Hd | |].
  - exact (proj1 (ticket_service_failure refusing_env "info" [] ∅
                    (example_adaptor (TVM2 (Some 2%nat) example_credentials) 30)
                    2%nat "ticket" [VStr "id"; VStr "secret"]
                    (Exn "ServiceError" "connection refused") Hd eq_refl) eq_refl).
  - exact (proj2 (ticket_service_failure broken_channel_env "info" [] ∅
                    (example_adaptor (TVM2 (Some 2%nat) example_credentials) 30)
                    2%nat "ticket" [VStr "id"; VStr "secret"]
                    (Exn "ChokeEvent" "channel closed") Hd' eq_refl)
             8%nat eq_refl eq_refl).
Defined.

(** X6. A token of [TVM] is never a token of [TVM2], whatever the
    tickets, and for one protocol different string tickets give
    different tokens: the ticket can be read back from the token. *)
Theorem tokens_tell_protocol_and_ticket :
  (∀ t t', _make_token TVM_TYPE t ≠ _make_token TVM2_TYPE t') ∧
  (∀ auth_type t t',
     _make_token auth_type (VStr t) = _make_token auth_type (VStr t') ↔ t = t').
Proof.
  split.
  - intros t t'. unfold _make_token, TVM_TYPE, TVM2_TYPE. simpl.
    intros H. by simplify_eq.
  - intros auth_type t t'. split; [|by intros ->].
    unfold _make_token. simpl.
    induction auth_type as [|c auth_type IH]; simpl; intros H; by simplify_eq.
Qed.

Lemma tokens_tell_protocol_and_ticket_witness :
  _make_token TVM_TYPE (VStr "abc") ≠ _make_token TVM2_TYPE (VStr "abc") ∧
  (_make_token TVM_TYPE (VStr "abc") = _make_token TVM_TYPE (VStr "abc") →
   "abc" = "abc").
Proof.
  split.
  - exact (proj1 tokens_tell_protocol_and_ticket (VStr "abc") (VStr "abc")).
  - exact (proj1 (proj2 tokens_tell_protocol_and_ticket TVM_TYPE "abc" "abc")).
Defined.

Lemma connect_run env traceid st :
  connect env traceid st =
    (match invoke_reply env (world st) (_wrapped (self st)) "connect" [traceid] ∅ with
     | Ok _ => Ok tt
     | Raised e => Raised e
     end,
     MkState (self st)
       (log (EvInvoke (_wrapped (self st)) "connect" [traceid] ∅) (world st))).
Proof.
  unfold connect, invoke. unfold_monad. simpl.
  by destruct (invoke_reply env _ _ _ _ _).
Qed.

Lemma disconnect_run env st :
  disconnect env st =
    (invoke_reply env (world st) (_wrapped (self st)) "disconnect" [] ∅,
     MkState (self st)
       (log (EvInvoke (_wrapped (self st)) "disconnect" [] ∅) (world st))).
Proof. unfold disconnect, invoke. by unfold_monad. Qed.

Lemma get_token_configuration env st :
  let st' := (_get_token env st).2 in
  _wrapped (self st') = _wrapped (self st) ∧
  _secure (self st') = _secure (self st) ∧
  _token_expiration_s (self st') = _token_expiration_s (self st).
Proof.
  simpl.
  destruct (get_token_cases env st)
    as [[_ H]|[(_ & ? & ? & _ & H)|(_ & ? & ? & _ & H)]]; by rewrite H.
Qed.

Lemma use_configuration env st a :
  _wrapped (self (use env st a)) = _wrapped (self st) ∧
  _secure (self (use env st a)) = _secure (self st) ∧
  _token_expiration_s (self (use env st a)) = _token_expiration_s (self st).
Proof.
  destruct a as [c|traceid|]; unfold use.
  - rewrite wrapper_self. apply get_token_configuration.
  - by rewrite connect_run.
  - by rewrite disconnect_run.
Qed.

(** X7. Nothing a user does through an adaptor, intercepted calls,
    [connect] or [disconnect], in any number and order and whatever
    their outcomes, changes the handle it wraps, its provider or its
    interval. *)
Theorem use_keeps_configuration env acts st :
  let st' := use_all env acts st in
  _wrapped (self st') = _wrapped (self st) ∧
  _secure (self st') = _secure (self st) ∧
  _token_expiration_s (self st') = _token_expiration_s (self st).
Proof.
  simpl. revert st. induction acts as [|a acts IH]; intros st; [done|].
  unfold use_all in *. simpl.
  destruct (IH (use env st a)) as (-> & -> & ->).
  apply use_configuration.
Qed.

(** X8. [connect] and [disconnect] involve no token: any run of them
    leaves the adaptor object untouched, fetches nothing, reads no
    clock, and calls the wrapped handle once per action, with the trace
    id as the only argument of [connect], no argument of [disconnect]
    and no keyword at all. *)
Theorem lifecycle_needs_no_token env acts st :
  Forall (λ a, is_call a = false) acts →
  let st' := use_all env acts st in
  self st' = self st ∧
  reads (world st') = reads (world st) ∧
  count_fetches (trace (world st')) = count_fetches (trace (world st)) ∧
  trace (world st')
  = trace (world st) ++ concat (map (lifecycle_event (_wrapped (self st))) acts).
Proof.
  intros Ha. simpl. revert st.
  induction Ha as [|a acts Hc _ IH]; intros st.
  - simpl. by rewrite app_nil_r.
  - unfold use_all in *. simpl.
    destruct (IH (use env st a)) as (-> & -> & -> & ->).
    destruct a as [c|traceid|]; [done| |]; unfold use.
    + rewrite connect_run. simpl. split_and!; [done|done| |].
      * unfold count_fetches. rewrite filter_app, length_app. simpl. lia.
      * by rewrite <- app_assoc.
    + rewrite disconnect_run. simpl. split_and!; [done|done| |].
      * unfold count_fetches. rewrite filter_app, length_app. simpl. lia.
      * by rewrite <- app_assoc.
Qed.

Lemma lifecycle_needs_no_token_witness :
  let st := example_adaptor (TVM (Some 2%nat) example_credentials) 30 in
  let st' := use_all example_env [Connect VNone; Disconnect; Connect (VInt 7)] st in
  self st' = self st ∧
  count_fetches (trace (world st')) = 0%nat ∧
  trace (world st')
  = [EvInvoke 1%nat "connect" [VNone] ∅; EvInvoke 1%nat "disconnect" [] ∅;
     EvInvoke 1%nat "connect" [VInt 7] ∅].
Proof.
  pose proof (lifecycle_needs_no_token example_env
                [Connect VNone; Disconnect; Connect (VInt 7)]
                (example_adaptor (TVM (Some 2%nat) example_credentials) 30)
                ltac:(repeat constructor)) as (H1 & _ & H3 & H4).
  split_and!; [exact H1 | exact H3 | exact H4].
Defined.

Lemma fetch_token_source_str env p w tok w' :
  source_provider p →
  fetch_token env p w = (Ok tok, w') → ∃ s, tok = VStr s.
Proof.
  destruct p as [|tvm cred|tvm2 cred|id]; [| | |done]; intros _;
    unfold fetch_token, mbind, M_bind, mret, M_ret, modify; cbv beta iota.
  - intros [= <- _]. eauto.
  - destruct (ticket_call env tvm _ _ _) as [[ch|?] w1]; [|done].
    destruct (rx_get env ch w1) as [[t|?] w2]; [|done].
    intros [= <- _]. eauto.
  - destruct (ticket_call env tvm2 _ _ _) as [[ch|?] w1]; [|done].
    destruct (rx_get env ch w1) as [[t|?] w2]; [|done].
    intros [= <- _]. eauto.
Qed.

Lemma authorized_ticket_requests evs :
  Forall (λ ev, is_ticket_request ev = true) evs → Forall authorized evs.
Proof. induction 1 as [|[] evs Hev _ IH]; constructor; done. Qed.

(** One intercepted call of an adaptor that either has never renewed
    (expiry at most 0) or holds a string token. *)
Lemma authorized_step env name args kwargs st :
  (∀ n, 0 ≤ clock env n) →
  source_provider (_secure (self st)) →
  (_to_expire (self st) ≤ 0 ∨ ∃ s, _token (self st) = VStr s) →
  let st' := (wrapper env name args kwargs st).2 in
  source_provider (_secure (self st')) ∧
  (_to_expire (self st') ≤ 0 ∨ ∃ s, _token (self st') = VStr s) ∧
  ∃ new, trace (world st') = trace (world st) ++ new ∧ Forall authorized new.
Proof.
  intros H0 Hp Hinv st'. subst st'.
  destruct (get_token_cases env st)
    as [[Hd H]|[(_ & tok & w' & Hf & H)|(_ & e & w' & Hf & H)]].
  - rewrite (wrapper_ok _ _ _ _ _ _ _ H). simpl.
    destruct Hinv as [Hle|[s Hs]].
    { unfold due in Hd. specialize (H0 (reads (world st))). lia. }
    split_and!; [done|eauto|].
    eexists [_]. split; [done|]. repeat constructor. simpl.
    exists s. by rewrite Hs, lookup_insert_eq.
  - rewrite (wrapper_ok _ _ _ _ _ _ _ H). simpl.
    destruct (fetch_token_source_str _ _ _ _ _ Hp Hf) as [s ->].
    destruct (fetch_token_shape env (_secure (self st)) (tick (world st)))
      as (evs & _ & Ht & Hevs).
    rewrite Hf in Ht. simpl in Ht. rewrite Ht.
    split_and!; [done|eauto|].
    eexists (EvFetchToken :: evs ++ [_]). split.
    + by rewrite <- app_assoc.
    + constructor; [done|]. apply Forall_app. split.
      * by apply authorized_ticket_requests.
      * repeat constructor. simpl. exists s. by rewrite lookup_insert_eq.
  - rewrite (wrapper_raised _ _ _ _ _ _ _ H). simpl.
    destruct (fetch_token_shape env (_secure (self st)) (tick (world st)))
      as (evs & _ & Ht & Hevs).
    rewrite Hf in Ht. simpl in Ht. rewrite Ht.
    split_and!; [done|done|].
    exists (EvFetchToken :: evs). split; [done|].
    constructor; [done|]. by apply authorized_ticket_requests.
Qed.

(** One action of a user on such an adaptor: an intercepted call
    forwards a string, [connect] and [disconnect] forward no keyword. *)
Lemma authorized_use env st a :
  (∀ n, 0 ≤ clock env n) →
  source_provider (_secure (self st)) →
  (_to_expire (self st) ≤ 0 ∨ ∃ s, _token (self st) = VStr s) →
  source_provider (_secure (self (use env st a))) ∧
  (_to_expire (self (use env st a)) ≤ 0 ∨ ∃ s, _token (self (use env st a)) = VStr s) ∧
  ∃ new, trace (world (use env st a)) = trace (world st) ++ new ∧
         Forall (λ ev, authorized ev ∨ lifecycle_call ev) new ∧
         (is_call a = true → Forall authorized new).
Proof.
  intros H0 Hp Hinv. destruct a as [c|traceid|]; unfold use.
  - destruct (authorized_step env (call_name c) (call_args c) (call_kwargs c) st
                H0 Hp Hinv) as (Hp' & Hinv' & new & Ht & Ha).
    split_and!; [done|done|]. exists new. split_and!; [done| |done].
    eapply Forall_impl; [exact Ha|]. by left.
  - rewrite connect_run. simpl. split_and!; [done|done|].
    eexists [_]. split_and!; [done| |done].
    apply Forall_singleton. right. simpl. auto.
  - rewrite disconnect_run. simpl. split_and!; [done|done|].
    eexists [_]. split_and!; [done| |done].
    apply Forall_singleton. right. simpl. auto.
Qed.

(** X9. With one of the providers of this file and a clock that never
    reads less than 0, the wrapped handle never sees
    [authorization=None]: whatever a user does with a newly built
    adaptor, intercepted calls, [connect] and [disconnect] in any
    number and order, every call that reaches the wrapped handle either
    carries a string under [authorization] or is the call of [connect]
    or [disconnect], which carries no keyword at all; and when the user
    makes intercepted calls only, every call that reaches the wrapped
    handle carries a string under [authorization]. *)
Theorem never_forwards_none env wrapped secure interval w acts :
  (∀ n, 0 ≤ clock env n) →
  source_provider secure →
  let st := MkState (SecureServiceAdaptor_init wrapped secure interval) w in
  ∃ new,
    trace (world (use_all env acts st)) = trace w ++ new ∧
    Forall (λ ev, authorized ev ∨ lifecycle_call ev) new ∧
    (Forall (λ a, is_call a = true) acts → Forall authorized new).
Proof.
  intros H0 Hp st.
  assert (Hgen : ∀ st,
            source_provider (_secure (self st)) →
            (_to_expire (self st) ≤ 0 ∨ ∃ s, _token (self st) = VStr s) →
            ∃ new, trace (world (use_all env acts st)) = trace (world st) ++ new
                   ∧ Forall (λ ev, authorized ev ∨ lifecycle_call ev) new
                   ∧ (Forall (λ a, is_call a = true) acts → Forall authorized new)).
  { clear st. induction acts as [|a acts IH]; intros st Hs Hinv.
    - exists []. simpl. rewrite app_nil_r. split_and!; [done|done|]. by intros _.
    - destruct (authorized_use env st a H0 Hs Hinv)
        as (Hs' & Hinv' & new1 & Ht1 & Ha1 & Hc1).
      destruct (IH (use env st a) Hs' Hinv') as (new & Ht & Ha & Hc).
      exists (new1 ++ new). unfold use_all in *. simpl. split_and!.
      + by rewrite Ht, Ht1, app_assoc.
      + by apply Forall_app.
      + intros Hall. apply Forall_cons in Hall as [Hca Hall].
        apply Forall_app. split; [by apply Hc1|by apply Hc]. }
  apply (Hgen st); [done|]. left. simpl. lia.
Qed.

Lemma never_forwards_none_witness :
  let acts := [Connect VNone; Call example_call; Call example_call; Disconnect] in
  (∀ n, 0 ≤ clock example_env n) ∧
  source_provider (TVM (Some 2%nat) example_credentials) ∧
  ∃ new,
    trace (world (use_all example_env acts
                    (example_adaptor (TVM (Some 2%nat) example_credentials) 30)))
    = trace example_world ++ new ∧
    Forall (λ ev, authorized ev ∨ lifecycle_call ev) new.
Proof.
  assert (H0 : ∀ n, 0 ≤ clock example_env n) by (intros n; simpl; lia).
  split_and!; [exact H0 | exact I |].
  destruct (never_forwards_none example_env 1%nat
              (TVM (Some 2%nat) example_credentials) 30 example_world
              [Connect VNone; Call example_call; Call example_call; Disconnect]
              H0 I) as (new & Ht & Ha & _).
  exists new. split; [exact Ht | exact Ha].
Defined.

(** X10. The same does not hold before the epoch: a new adaptor holds
    [None] with expiry 0, so a first call under a clock that reads less
    than 0 fetches nothing and forwards [authorization=None]. *)
Theorem pre_epoch_first_call_forwards_none env wrapped secure interval w
    name args kwargs :
  clock env (reads w) < 0 →
  let st := MkState (SecureServiceAdaptor_init wrapped secure interval) w in
  let forwarded := <["authorization" := VNone]> kwargs in
  wrapper env name args kwargs st =
    (invoke_reply env (tick w) wrapped name args forwarded,
     MkState (self st) (log (EvInvoke wrapped name args forwarded) (tick w))) ∧
  count_fetches (trace (world (wrapper env name args kwargs st).2))
  = count_fetches (trace w).
Proof.
  intros Hc st forwarded.
  assert (Hd : ¬ due env st) by (unfold due; simpl; lia).
  split.
  - by rewrite (wrapper_ok _ _ _ _ _ _ _ (get_token_valid env st Hd)).
  - by rewrite wrapper_count, get_token_count_valid.
Qed.

Lemma pre_epoch_first_call_forwards_none_witness :
  clock pre_epoch_env (reads example_world) < 0 ∧
  wrapper pre_epoch_env "info" [] ∅ (example_adaptor Promiscuous 30) =
    (Ok 9%nat,
     MkState (SecureServiceAdaptor_init 1%nat Promiscuous 30)
       (log (EvInvoke 1%nat "info" [] (<["authorization" := VNone]> ∅))
          (tick example_world))).
Proof.
  assert (Hc : clock pre_epoch_env (reads example_world) < 0) by (simpl; lia).
  split; [exact Hc|].
  exact (proj1 (pre_epoch_first_call_forwards_none pre_epoch_env 1%nat Promiscuous
                  30 example_world "info" [] ∅ Hc)).
Defined.

(** * More on the construction of providers, adaptors and repositories *)

Lemma credentials_kwargs_lookups c :
  credentials_kwargs c !! "client_id" = Some (client_id c) ∧
  credentials_kwargs c !! "client_secret" = Some (client_secret c) ∧
  credentials_kwargs c !! "ticket_service" = None ∧
  size (credentials_kwargs c) = 2%nat.
Proof.
  unfold credentials_kwargs. split_and!.
  - by rewrite lookup_insert_eq.
  - by rewrite lookup_insert_ne, lookup_singleton_eq.
  - by rewrite lookup_insert_ne, lookup_singleton_ne.
  - rewrite map_size_insert_None, map_size_singleton; [done|].
    by rewrite lookup_singleton_ne.
Qed.

Lemma Credentials_new_spec kwargs :
  (∀ c, Credentials_new kwargs = Ok c ↔ kwargs = credentials_kwargs c) ∧
  (∀ e, Credentials_new kwargs = Raised e → exn_type e = "TypeError").
Proof.
  split.
  - intros c. split.
    + unfold Credentials_new.
      destruct (kwargs !! "client_id") as [i|] eqn:Hi; [|done].
      destruct (kwargs !! "client_secret") as [x|] eqn:Hx; [|done].
      case_bool_decide as Hsz; [|done]. intros [= <-]. simpl.
      unfold credentials_kwargs. simpl.
      assert (He : delete "client_id" (delete "client_secret" kwargs) = ∅).
      { apply map_size_empty_inv.
        rewrite map_size_delete_Some, map_size_delete_Some, Hsz; [done|eauto|].
        rewrite lookup_delete_ne by done. eauto. }
      rewrite <- (insert_delete_id kwargs "client_secret" x) at 1 by done.
      rewrite <- (insert_delete_id (delete "client_secret" kwargs) "client_id" i)
        by (by rewrite lookup_delete_ne).
      rewrite He, insert_empty. done.
    + intros ->. unfold Credentials_new.
      destruct (credentials_kwargs_lookups c) as (-> & -> & _ & ->).
      by destruct c.
  - intros e. unfold Credentials_new.
    destruct (kwargs !! "client_id"); [|by intros [= <-]].
    destruct (kwargs !! "client_secret"); [|by intros [= <-]].
    case_bool_decide; [done|by intros [= <-]].
Qed.

(** X11. [Credentials( **kwargs )] succeeds exactly when the keywords
    are [client_id] and [client_secret] and nothing else, and then holds
    their two values; a missing or an extra keyword is a [TypeError]. *)
Theorem credentials_take_exactly_two_fields kwargs :
  (∀ c, Credentials_new kwargs = Ok c ↔ kwargs = credentials_kwargs c) ∧
  ((∀ c, kwargs ≠ credentials_kwargs c) →
   ∃ e, Credentials_new kwargs = Raised e ∧ exn_type e = "TypeError").
Proof.
  destruct (Credentials_new_spec kwargs) as [Hok Herr]. split; [done|].
  intros Hne. destruct (Credentials_new kwargs) as [c|e] eqn:H.
  - by destruct (Hne c); apply Hok.
  - eauto.
Qed.

Lemma credentials_take_exactly_two_fields_witness :
  Credentials_new example_kwargs = Ok example_credentials ∧
  ∃ e, Credentials_new {["client_id" := VStr "id"]} = Raised e ∧
       exn_type e = "TypeError".
Proof.
  split.
  - exact (proj2 (proj1 (credentials_take_exactly_two_fields example_kwargs)
                    example_credentials) eq_refl).
  - apply (proj2 (credentials_take_exactly_two_fields {["client_id" := VStr "id"]})).
    intros c Hc.
    assert (H : ({["client_id" := VStr "id"]} : gmap string value) !! "client_secret"
                = credentials_kwargs c !! "client_secret") by (by rewrite Hc).
    vm_compute in H. discriminate H.
Defined.

Lemma create_ticket_service_named defaults mod_ n endpoints h :
  ticket_service_name mod_ = Some n →
  create_ticket_service defaults mod_ endpoints h
  = (Ok (Some (length h)), h ++ [ObjService n endpoints None]).
Proof.
  unfold ticket_service_name, create_ticket_service.
  case_bool_decide; [by intros [= <-]|].
  case_bool_decide; [by intros [= <-]|done].
Qed.

(** With a ticket mode, the provider is made of the ticket service and
    the credentials, or the arguments are refused with a [TypeError]. *)
Lemma call_create_secure_provider_named mod_ n ticket_service kwargs :
  ticket_service_name mod_ = Some n →
  (∀ c, kwargs = credentials_kwargs c →
        call_create_secure_provider mod_ ticket_service kwargs
        = Ok (if bool_decide (mod_ = TVM_TYPE)
              then TVM ticket_service c else TVM2 ticket_service c)) ∧
  ((∀ c, kwargs ≠ credentials_kwargs c) →
   ∃ e, call_create_secure_provider mod_ ticket_service kwargs = Raised e ∧
        exn_type e = "TypeError").
Proof.
  intros Hn. destruct (Credentials_new_spec kwargs) as [Hok Herr]. split.
  - intros c Hc. unfold call_create_secure_provider, create_secure_provider.
    rewrite (proj2 (Hok c) Hc). subst kwargs.
    destruct (credentials_kwargs_lookups c) as (_ & _ & -> & _).
    unfold ticket_service_name in Hn.
    case_bool_decide; [done|]. case_bool_decide; [done|done].
  - intros Hne. unfold call_create_secure_provider, create_secure_provider.
    destruct (kwargs !! "ticket_service"); [eauto|].
    destruct (Credentials_new kwargs) as [c|e] eqn:H.
    { by destruct (Hne c); apply Hok. }
    unfold ticket_service_name in Hn.
    case_bool_decide; [eauto|]. case_bool_decide; [eauto|done].
Qed.

(** X12. [make_secure_adaptor] in mode ["TVM"] or ["TVM2"], around a
    handle: the ticket service is a new [Service] named ["tvm"] or
    ["tvm2"] at the endpoints given, or at those of the wrapped handle
    when none or an empty list is given.  With exactly the two
    credential keywords the adaptor is the next new object, unfetched,
    around the handle, with the provider of the mode bound to that
    ticket service; with any other keywords the call ends in a
    [TypeError] after the ticket service has been built. *)
Theorem make_secure_adaptor_in_ticket_mode defaults service endpoints mod_
    interval kwargs (h : Heap) o n :
  h !! service = Some o → is_handle o = true →
  ticket_service_name mod_ = Some n →
  let chosen := match endpoints with
                | Some (e :: eps) => e :: eps
                | _ => object_endpoints o
                end in
  let h1 := h ++ [ObjService n chosen None] in
  (∀ c, kwargs = credentials_kwargs c →
     let provider := if bool_decide (mod_ = TVM_TYPE)
                     then TVM (Some (length h)) c else TVM2 (Some (length h)) c in
     make_secure_adaptor defaults service endpoints mod_ interval kwargs h
     = (Ok (S (length h)),
        h1 ++ [ObjAdaptor (SecureServiceAdaptor_init service provider interval)])) ∧
  ((∀ c, kwargs ≠ credentials_kwargs c) →
   ∃ e, exn_type e = "TypeError" ∧
        make_secure_adaptor defaults service endpoints mod_ interval kwargs h
        = (Raised e, h1)).
Proof.
  intros Ho Hh Hn chosen h1.
  assert (He : (match endpoints with
                | Some (e :: eps) => mret (e :: eps)
                | _ => get_endpoints service
                end) h = (Ok chosen, h)).
  { subst chosen. destruct endpoints as [[|e eps]|]; [|done|];
      unfold get_endpoints; cbv beta; rewrite Ho; by destruct o. }
  destruct (call_create_secure_provider_named mod_ n (Some (length h)) kwargs Hn)
    as [Hok Herr].
  split.
  - intros c Hc provider.
    unfold make_secure_adaptor, mbind, M_bind. cbv beta. rewrite He.
    rewrite (create_ticket_service_named _ _ n) by done.
    unfold lift_outcome. rewrite (Hok c Hc).
    unfold SecureServiceAdaptor_new, new. rewrite length_app. simpl.
    by rewrite Nat.add_1_r.
  - intros Hne. destruct (Herr Hne) as (e & Hr & He').
    exists e. split; [done|].
    unfold make_secure_adaptor, mbind, M_bind. cbv beta. rewrite He.
    rewrite (create_ticket_service_named _ _ n) by done.
    unfold lift_outcome. by rewrite Hr.
Qed.

Lemma make_secure_adaptor_in_ticket_mode_witness :
  make_secure_adaptor example_endpoints 1%nat None "TVM" 30 example_kwargs
    example_heap
  = (Ok 3%nat,
     example_heap ++
     [ObjService "tvm" example_endpoints None;
      ObjAdaptor (SecureServiceAdaptor_init 1%nat
                    (TVM (Some 2%nat) example_credentials) 30)]) ∧
  ∃ e, exn_type e = "TypeError" ∧
       make_secure_adaptor example_endpoints 1%nat None "TVM" 30 ∅ example_heap
       = (Raised e, example_heap ++ [ObjService "tvm" example_endpoints None]).
Proof.
  split.
  - exact (proj1 (make_secure_adaptor_in_ticket_mode example_endpoints 1%nat None
                    "TVM" 30 example_kwargs example_heap
                    (ObjService "node" example_endpoints (Some 0%nat)) "tvm"
                    eq_refl eq_refl eq_refl) example_credentials eq_refl).
  - apply (proj2 (make_secure_adaptor_in_ticket_mode example_endpoints 1%nat None
                    "TVM" 30 ∅ example_heap
                    (ObjService "node" example_endpoints (Some 0%nat)) "tvm"
                    eq_refl eq_refl eq_refl)).
    intros c Hc.
    assert (H : (∅ : gmap string value) !! "client_id"
                = credentials_kwargs c !! "client_id") by (by rewrite Hc).
    vm_compute in H. discriminate H.
Defined.

(** X13. [SecureServiceRepository.__init__] in mode ["TVM"] or
    ["TVM2"]: the locator is the first new object and the ticket service
    the second, a [Service] named ["tvm"] or ["tvm2"] at the very
    endpoints of the locator (the default ones when none are given).
    With exactly the two credential keywords the repository starts with
    both caches empty and the provider of the mode bound to that ticket
    service; with any other keywords construction ends in a [TypeError]
    after both objects have been built. *)
Theorem secure_repository_init_in_ticket_mode defaults endpoints mod_ interval
    kwargs (h : Heap) n :
  ticket_service_name mod_ = Some n →
  let eps := default defaults endpoints in
  let h1 := h ++ [ObjLocator eps; ObjService n eps None] in
  (∀ c, kwargs = credentials_kwargs c →
     let provider := if bool_decide (mod_ = TVM_TYPE)
                     then TVM (Some (S (length h))) c
                     else TVM2 (Some (S (length h))) c in
     repository.SecureServiceRepository_init defaults endpoints mod_ interval
       kwargs h
     = (Ok (repository.MkSecureServiceRepository
              (repository.MkServiceRepository (length h) ∅) interval provider ∅),
        h1)) ∧
  ((∀ c, kwargs ≠ credentials_kwargs c) →
   ∃ e, exn_type e = "TypeError" ∧
        repository.SecureServiceRepository_init defaults endpoints mod_ interval
          kwargs h
        = (Raised e, h1)).
Proof.
  intros Hn eps h1. subst eps h1.
  destruct (call_create_secure_provider_named mod_ n (Some (S (length h))) kwargs Hn)
    as [Hok Herr].
  assert (Hl : length (h ++ [ObjLocator (default defaults endpoints)])
               = S (length h))
    by (rewrite length_app; simpl; lia).
  split.
  - intros c Hc provider.
    unfold repository.SecureServiceRepository_init,
      repository.ServiceRepository_init, Locator, new, mbind, M_bind.
    cbv beta iota. unfold mret at 1, M_ret at 1. cbv beta iota.
    rewrite (create_ticket_service_named _ _ n) by done. rewrite Hl.
    unfold lift_outcome. rewrite (Hok c Hc).
    by rewrite <- app_assoc.
  - intros Hne. destruct (Herr Hne) as (e & Hr & He').
    exists e. split; [done|].
    unfold repository.SecureServiceRepository_init,
      repository.ServiceRepository_init, Locator, new, mbind, M_bind.
    cbv beta iota. unfold mret at 1, M_ret at 1. cbv beta iota.
    rewrite (create_ticket_service_named _ _ n) by done. rewrite Hl.
    unfold lift_outcome. rewrite Hr.
    by rewrite <- app_assoc.
Qed.

Lemma secure_repository_init_in_ticket_mode_witness :
  repository.SecureServiceRepository_init example_endpoints None "TVM2" 30
    example_kwargs []
  = (Ok example_repository, example_repository_heap) ∧
  ∃ e, exn_type e = "TypeError" ∧
       repository.SecureServiceRepository_init example_endpoints None "TVM2" 30
         ∅ []
       = (Raised e, example_repository_heap).
Proof.
  split.
  - exact (proj1 (secure_repository_init_in_ticket_mode example_endpoints None
                    "TVM2" 30 example_kwargs [] "tvm2" eq_refl)
             example_credentials eq_refl).
  - apply (proj2 (secure_repository_init_in_ticket_mode example_endpoints None
                    "TVM2" 30 ∅ [] "tvm2" eq_refl)).
    intros c Hc.
    assert (H : (∅ : gmap string value) !! "client_id"
                = credentials_kwargs c !! "client_id") by (by rewrite Hc).
    vm_compute in H. discriminate H.
Defined.

(** * The caches *)

Import repository.

Section Caches.

Variable LOCATOR_SERVICE_NAME : string.
Variable LOCATOR_DEFAULT_ENDPOINTS : list endpoint.

Local Abbreviation create_service :=
  (create_service LOCATOR_SERVICE_NAME LOCATOR_DEFAULT_ENDPOINTS).
Local Abbreviation resolve_all :=
  (resolve_all LOCATOR_SERVICE_NAME LOCATOR_DEFAULT_ENDPOINTS).
Local Abbreviation known := (resolved LOCATOR_SERVICE_NAME).

Lemma service_names_app h1 h2 :
  service_names (h1 ++ h2) = service_names h1 ++ service_names h2.
Proof.
  induction h1 as [|[] h1 IH]; simpl; [done|done| |done]. by rewrite IH.
Qed.

Lemma create_service_hit name p service :
  _cache (plain_self p) !! name = Some service →
  create_service name p = (Ok service, p).
Proof. intros H. unfold repository.create_service. unfold_monad. simpl. by rewrite H. Qed.

Lemma create_service_locator p :
  _cache (plain_self p) !! LOCATOR_SERVICE_NAME = None →
  create_service LOCATOR_SERVICE_NAME p = (Ok (_locator (plain_self p)), p).
Proof.
  intros H. unfold repository.create_service. unfold_monad. simpl.
  rewrite H, bool_decide_eq_true_2 by done. done.
Qed.

Lemma create_service_miss name p :
  _cache (plain_self p) !! name = None →
  name ≠ LOCATOR_SERVICE_NAME →
  create_service name p =
    (Ok (length (plain_heap p)),
     MkPlain
       (MkServiceRepository (_locator (plain_self p))
          (<[name := length (plain_heap p)]> (_cache (plain_self p))))
       (plain_heap p ++
        [ObjService name LOCATOR_DEFAULT_ENDPOINTS (Some (_locator (plain_self p)))])).
Proof.
  intros H Hn. unfold repository.create_service. unfold_monad. simpl.
  rewrite H, bool_decide_eq_false_2 by done. done.
Qed.

Lemma create_service_resolved name p service :
  known (plain_self p) name = Some service →
  create_service name p = (Ok service, p).
Proof.
  unfold resolved.
  destruct (_cache (plain_self p) !! name) as [r|] eqn:Hc.
  - intros [= <-]. by apply create_service_hit.
  - case_bool_decide as Hn; [|done]. intros [= <-]. subst name.
    by apply create_service_locator.
Qed.

(** One call of [create_service]: it returns, what it returns is what
    later calls return, nothing resolved before is lost, the locator
    stays, and at most one [Service] is constructed, for a name the
    cache did not hold. *)
Lemma create_service_step name p :
  ∃ service p' made,
    create_service name p = (Ok service, p') ∧
    known (plain_self p') name = Some service ∧
    (∀ n r, known (plain_self p) n = Some r → known (plain_self p') n = Some r) ∧
    (∀ n, _cache (plain_self p') !! n = None → _cache (plain_self p) !! n = None) ∧
    plain_heap p' = plain_heap p ++ made ∧
    (made = [] ∨
     (service_names made = [name] ∧ _cache (plain_self p) !! name = None ∧
      is_Some (_cache (plain_self p') !! name))) ∧
    Forall (λ o, is_handle o = true) made.
Proof.
  destruct (known (plain_self p) name) as [r|] eqn:Hr.
  - exists r, p, []. rewrite app_nil_r. split_and!; auto using create_service_resolved.
  - unfold resolved in Hr.
    destruct (_cache (plain_self p) !! name) eqn:Hc; [done|].
    case_bool_decide as Hn; [done|].
    eexists _, _, [_]. split_and!.
    + by apply create_service_miss.
    + unfold resolved. simpl. by rewrite lookup_insert_eq.
    + intros n r. unfold resolved. simpl.
      destruct (decide (n = name)) as [->|Hne].
      * rewrite Hc, bool_decide_eq_false_2 by done. done.
      * by rewrite lookup_insert_ne.
    + simpl. intros n. destruct (decide (n = name)) as [->|Hne]; [done|].
      by rewrite lookup_insert_ne.
    + done.
    + right. simpl. rewrite lookup_insert_eq. eauto.
    + by repeat constructor.
Qed.

(** What a life of a plain repository amounts to. *)
Lemma resolve_all_spec names : ∀ p,
  ∃ services p' made,
    resolve_all names p = (Ok services, p') ∧
    length services = length names ∧
    (∀ n r, known (plain_self p) n = Some r → known (plain_self p') n = Some r) ∧
    (∀ n, _cache (plain_self p') !! n = None → _cache (plain_self p) !! n = None) ∧
    (∀ i name service,
       names !! i = Some name → services !! i = Some service →
       known (plain_self p') name = Some service) ∧
    plain_heap p' = plain_heap p ++ made ∧
    NoDup (service_names made) ∧
    (∀ n, n ∈ service_names made → _cache (plain_self p) !! n = None).
Proof.
  induction names as [|name names IH]; intros p.
  - exists [], p, []. rewrite app_nil_r. split_and!; try done.
    + constructor.
    + intros n Hn. simpl in Hn. by apply elem_of_nil in Hn.
  - destruct (create_service_step name p)
      as (service & p1 & made1 & Hrun & Hres & Hstab & Hcache & Hheap & Hmade & _).
    destruct (IH p1)
      as (services & p' & made & Hrun' & Hlen & Hstab' & Hcache' & Hidx & Hheap' & Hnd & Hfresh).
    exists (service :: services), p', (made1 ++ made).
    split_and!.
    + simpl. unfold mbind, M_bind. rewrite Hrun. fold resolve_all. rewrite Hrun'. done.
    + simpl. by rewrite Hlen.
    + auto.
    + auto.
    + intros [|i] n r; simpl.
      * intros [= <-] [= <-]. auto.
      * apply Hidx.
    + by rewrite Hheap', Hheap, app_assoc.
    + rewrite service_names_app.
      destruct Hmade as [->|(Hn & Hc & Hs)]; [done|].
      rewrite Hn. simpl. constructor; [|done].
      intros Hin. apply Hfresh in Hin. rewrite Hin in Hs. by destruct Hs.
    + intros n. rewrite service_names_app, elem_of_app.
      destruct Hmade as [->|(Hn & Hc & Hs)].
      * simpl. intros [Hin|Hin]; [by apply elem_of_nil in Hin|]. auto.
      * rewrite Hn. intros [Hin|Hin]; [|auto].
        apply list_elem_of_singleton in Hin. by subst n.
Qed.

Local Abbreviation create_secure_service :=
  (create_secure_service LOCATOR_SERVICE_NAME LOCATOR_DEFAULT_ENDPOINTS).
Local Abbreviation serve := (serve LOCATOR_SERVICE_NAME LOCATOR_DEFAULT_ENDPOINTS).
Local Abbreviation serve_all :=
  (serve_all LOCATOR_SERVICE_NAME LOCATOR_DEFAULT_ENDPOINTS).
Local Abbreviation wrap_known :=
  (adaptors_wrap_resolved LOCATOR_SERVICE_NAME).

Lemma create_secure_service_hit name st a :
  _cache_secured (secure_self st) !! name = Some a →
  create_secure_service name st = (Ok a, st).
Proof.
  intros H. unfold repository.create_secure_service. unfold_monad. simpl.
  by rewrite H.
Qed.

Lemma create_secure_service_miss name st wrapped p :
  _cache_secured (secure_self st) !! name = None →
  create_service name (as_plain st) = (Ok wrapped, p) →
  create_secure_service name st =
    (Ok (length (plain_heap p)),
     MkSecure
       (MkSecureServiceRepository (plain_self p)
          (_token_expiration_s (secure_self st))
          (_secure_provider (secure_self st))
          (<[name := length (plain_heap p)]> (_cache_secured (secure_self st))))
       (plain_heap p ++
        [ObjAdaptor (SecureServiceAdaptor_init wrapped
                       (_secure_provider (secure_self st))
                       (_token_expiration_s (secure_self st)))])).
Proof.
  intros H Hc. unfold repository.create_secure_service, super. unfold_monad.
  simpl. rewrite H, Hc. done.
Qed.

(** One call on a secure repository, of either kind. *)
Lemma serve_step rq st :
  wrap_known st →
  ∃ r st' made,
    serve rq st = (Ok r, st') ∧
    wrap_known st' ∧
    (∀ n h, known (base (secure_self st)) n = Some h →
            known (base (secure_self st')) n = Some h) ∧
    (∀ n, _cache (base (secure_self st')) !! n = None →
          _cache (base (secure_self st)) !! n = None) ∧
    (∀ n a, _cache_secured (secure_self st) !! n = Some a →
            _cache_secured (secure_self st') !! n = Some a) ∧
    (∀ n, rq = Resolve n → known (base (secure_self st')) n = Some r) ∧
    (∀ n, rq = ResolveSecure n → _cache_secured (secure_self st') !! n = Some r) ∧
    secure_heap st' = secure_heap st ++ made ∧
    (service_names made = [] ∨
     ∃ n, service_names made = [n] ∧
          _cache (base (secure_self st)) !! n = None ∧
          is_Some (_cache (base (secure_self st')) !! n)).
Proof.
  intros Hinv.
  assert (Hmade : ∀ name (p p' : Plain) made,
            (made = [] ∨
             (service_names made = [name] ∧ _cache (plain_self p) !! name = None ∧
              is_Some (_cache (plain_self p') !! name))) →
            service_names made = [] ∨
            ∃ n, service_names made = [n] ∧ _cache (plain_self p) !! n = None ∧
                 is_Some (_cache (plain_self p') !! n)).
  { intros name p p' made [->|H]; [by left|right; eauto]. }
  destruct rq as [name|name].
  - destruct (create_service_step name (as_plain st))
      as (r & p' & made & Hrun & Hres & Hstab & Hcache & Hheap & Hm & _).
    eexists r, _, made. split_and!.
    + simpl. unfold super. rewrite Hrun. done.
    + intros n a Ha. simpl in Ha. destruct (Hinv n a Ha) as (ad & Hl & Hw).
      exists ad. simpl. rewrite Hheap. split; [by apply lookup_app_l_Some|auto].
    + done.
    + done.
    + done.
    + by intros n [= ->].
    + done.
    + done.
    + by apply (Hmade name (as_plain st) p').
  - destruct (_cache_secured (secure_self st) !! name) as [a|] eqn:Hc.
    + exists a, st, []. rewrite app_nil_r.
      split_and!; auto.
      * simpl. by apply create_secure_service_hit.
      * done.
      * by intros n [= ->].
    + destruct (create_service_step name (as_plain st))
        as (r & p' & made & Hrun & Hres & Hstab & Hcache & Hheap & Hm & Hh).
      eexists _, _, (made ++ [_]). split_and!.
      * simpl. by apply create_secure_service_miss.
      * intros n a. simpl. destruct (decide (n = name)) as [->|Hne].
        -- rewrite lookup_insert_eq. intros [= <-].
           eexists. split; [apply list_lookup_middle; done|]. done.
        -- rewrite lookup_insert_ne by done. intros Ha.
           destruct (Hinv n a Ha) as (ad & Hl & Hw).
           exists ad. split; [|auto].
           apply lookup_app_l_Some. rewrite Hheap. by apply lookup_app_l_Some.
      * done.
      * done.
      * simpl. intros n a Ha. rewrite lookup_insert_ne; [done|congruence].
      * done.
      * simpl. intros n [= ->]. by rewrite lookup_insert_eq.
      * simpl. by rewrite Hheap, app_assoc.
      * rewrite service_names_app. simpl. rewrite app_nil_r.
        by apply (Hmade name (as_plain st) p').
Qed.

(** What a life of a secure repository amounts to. *)
Lemma serve_all_spec rqs : ∀ st,
  wrap_known st →
  ∃ rs st' made,
    serve_all rqs st = (Ok rs, st') ∧
    length rs = length rqs ∧
    wrap_known st' ∧
    (∀ n h, known (base (secure_self st)) n = Some h →
            known (base (secure_self st')) n = Some h) ∧
    (∀ n, _cache (base (secure_self st')) !! n = None →
          _cache (base (secure_self st)) !! n = None) ∧
    (∀ n a, _cache_secured (secure_self st) !! n = Some a →
            _cache_secured (secure_self st') !! n = Some a) ∧
    (∀ i n r, rqs !! i = Some (Resolve n) → rs !! i = Some r →
              known (base (secure_self st')) n = Some r) ∧
    (∀ i n r, rqs !! i = Some (ResolveSecure n) → rs !! i = Some r →
              _cache_secured (secure_self st') !! n = Some r) ∧
    secure_heap st' = secure_heap st ++ made ∧
    NoDup (service_names made) ∧
    (∀ n, n ∈ service_names made → _cache (base (secure_self st)) !! n = None).
Proof.
  induction rqs as [|rq rqs IH]; intros st Hinv.
  - exists [], st, []. rewrite app_nil_r. split_and!; try done.
    + constructor.
    + intros n Hn. by apply elem_of_nil in Hn.
  - destruct (serve_step rq st Hinv)
      as (r & st1 & made1 & Hrun & Hinv1 & Hstab & Hcache & Hsec & Hres & Hress
          & Hheap & Hmade).
    destruct (IH st1 Hinv1)
      as (rs & st' & made & Hrun' & Hlen & Hinv' & Hstab' & Hcache' & Hsec'
          & Hidx & Hidxs & Hheap' & Hnd & Hfresh).
    exists (r :: rs), st', (made1 ++ made).
    split_and!.
    + simpl. unfold mbind, M_bind. rewrite Hrun. fold serve_all. rewrite Hrun'. done.
    + simpl. by rewrite Hlen.
    + done.
    + auto.
    + auto.
    + auto.
    + intros [|i] n h; simpl; [|apply Hidx]. intros [= ->] [= <-]. eauto.
    + intros [|i] n h; simpl; [|apply Hidxs]. intros [= ->] [= <-]. eauto.
    + by rewrite Hheap', Hheap, app_assoc.
    + rewrite service_names_app.
      destruct Hmade as [->|(n & -> & Hc & Hs)]; [done|].
      simpl. constructor; [|done].
      intros Hin. apply Hfresh in Hin. rewrite Hin in Hs. by destruct Hs.
    + intros n. rewrite service_names_app, elem_of_app.
      destruct Hmade as [->|(n' & -> & Hc & Hs)].
      * intros [Hin|Hin]; [by apply elem_of_nil in Hin|]. auto.
      * intros [Hin|Hin]; [|auto].
        apply list_elem_of_singleton in Hin. by subst n.
Qed.

Lemma secure_init_spec endpoints mod_ interval kwargs h0 repo h1 :
  SecureServiceRepository_init LOCATOR_DEFAULT_ENDPOINTS endpoints mod_ interval
    kwargs h0 = (Ok repo, h1) →
  _cache_secured repo = ∅ ∧ _cache (base repo) = ∅.
Proof.
  unfold SecureServiceRepository_init, ServiceRepository_init, Locator, new,
    lift_outcome, mbind, M_bind. cbv beta iota.
  unfold mret at 1, M_ret at 1. cbv beta iota.
  destruct (create_ticket_service _ _ _ _) as [[ts|e] h]; [|done].
  destruct (call_create_secure_provider _ _ _) as [prov|e]; [|done].
  by intros [= <- <-].
Qed.

Lemma super_create_service_known name st service :
  known (base (secure_self st)) name = Some service →
  super (create_service name) st = (Ok service, st).
Proof.
  intros H. unfold super.
  rewrite (create_service_resolved name (as_plain st) service) by done.
  by destruct st as [[] ?].
Qed.

(** C3. Over the whole life of a repository, plain or secure, whatever
    is asked of it and in whatever order: every call returns, any two
    calls of [create_service] with the same name return the same object,
    and the [Service] objects constructed after the repository was built
    have pairwise different names.  The reserved name of the locator is
    a name like any other here. *)
Theorem resolve_is_memoized endpoints h0 :
  (∀ names,
     let h1 := h0 ++ [ObjLocator (default LOCATOR_DEFAULT_ENDPOINTS endpoints)] in
     let repo := MkServiceRepository (length h0) ∅ in
     ServiceRepository_init LOCATOR_DEFAULT_ENDPOINTS endpoints h0 = (Ok repo, h1) ∧
     ∃ services p made,
       resolve_all names (MkPlain repo h1) = (Ok services, p) ∧
       length services = length names ∧
       (∀ i j name a b,
          names !! i = Some name → names !! j = Some name →
          services !! i = Some a → services !! j = Some b → a = b) ∧
       plain_heap p = h1 ++ made ∧
       NoDup (service_names made)) ∧
  (∀ mod_ interval kwargs repo h1 rqs,
     SecureServiceRepository_init LOCATOR_DEFAULT_ENDPOINTS endpoints mod_
       interval kwargs h0 = (Ok repo, h1) →
     ∃ rs st made,
       serve_all rqs (MkSecure repo h1) = (Ok rs, st) ∧
       length rs = length rqs ∧
       (∀ i j name a b,
          rqs !! i = Some (Resolve name) → rqs !! j = Some (Resolve name) →
          rs !! i = Some a → rs !! j = Some b → a = b) ∧
       secure_heap st = h1 ++ made ∧
       NoDup (service_names made)).
Proof.
  split.
  - intros names h1 repo. split; [done|].
    destruct (resolve_all_spec names (MkPlain repo h1))
      as (services & p & made & Hrun & Hlen & _ & _ & Hidx & Hheap & Hnd & _).
    exists services, p, made. split_and!; try done.
    intros i j name a b Hi Hj Ha Hb.
    pose proof (Hidx i name a Hi Ha) as H1.
    pose proof (Hidx j name b Hj Hb) as H2. congruence.
  - intros mod_ interval kwargs repo h1 rqs Hinit.
    destruct (secure_init_spec _ _ _ _ _ _ _ Hinit) as [Hs _].
    assert (Hinv : wrap_known (MkSecure repo h1)).
    { intros n a. simpl. by rewrite Hs, lookup_empty. }
    destruct (serve_all_spec rqs _ Hinv)
      as (rs & st & made & Hrun & Hlen & _ & _ & _ & _ & Hidx & _ & Hheap & Hnd & _).
    exists rs, st, made. split_and!; try done.
    intros i j name a b Hi Hj Ha Hb.
    pose proof (Hidx i name a Hi Ha) as H1.
    pose proof (Hidx j name b Hj Hb) as H2. congruence.
Qed.

(** C6. Over the whole life of a secure repository: every call returns,
    any two calls of [create_secure_service] with the same name return
    the same object, and that object is an adaptor in the heap whose
    wrapped handle is the one [create_service] returns for the name,
    now and at every earlier call; asking again constructs nothing. *)
Theorem secure_cache_composition endpoints mod_ interval kwargs h0 repo h1 rqs :
  SecureServiceRepository_init LOCATOR_DEFAULT_ENDPOINTS endpoints mod_ interval
    kwargs h0 = (Ok repo, h1) →
  ∃ rs st,
    serve_all rqs (MkSecure repo h1) = (Ok rs, st) ∧
    length rs = length rqs ∧
    (∀ i j name a b,
       rqs !! i = Some (ResolveSecure name) → rqs !! j = Some (ResolveSecure name) →
       rs !! i = Some a → rs !! j = Some b → a = b) ∧
    (∀ i name a,
       rqs !! i = Some (ResolveSecure name) → rs !! i = Some a →
       ∃ ad,
         secure_heap st !! a = Some (ObjAdaptor ad) ∧
         super (create_service name) st = (Ok (_wrapped ad), st) ∧
         (∀ j h, rqs !! j = Some (Resolve name) → rs !! j = Some h →
                 h = _wrapped ad) ∧
         create_secure_service name st = (Ok a, st)).
Proof.
  intros Hinit.
  destruct (secure_init_spec _ _ _ _ _ _ _ Hinit) as [Hs _].
  assert (Hinv : wrap_known (MkSecure repo h1)).
  { intros n a. simpl. by rewrite Hs, lookup_empty. }
  destruct (serve_all_spec rqs _ Hinv)
    as (rs & st & made & Hrun & Hlen & Hinv' & _ & _ & _ & Hidx & Hidxs & _).
  exists rs, st. split_and!; try done.
  - intros i j name a b Hi Hj Ha Hb.
    pose proof (Hidxs i name a Hi Ha) as H1.
    pose proof (Hidxs j name b Hj Hb) as H2. congruence.
  - intros i name a Hi Ha.
    pose proof (Hidxs i name a Hi Ha) as Hc.
    destruct (Hinv' name a Hc) as (ad & Hl & Hw).
    exists ad. split_and!.
    + done.
    + by apply super_create_service_known.
    + intros j h Hj Hh. pose proof (Hidx j name h Hj Hh). congruence.
    + by apply create_secure_service_hit.
Qed.

End Caches.

Lemma resolve_is_memoized_witness :
  SecureServiceRepository_init example_endpoints None "TVM2" 30 example_kwargs []
  = (Ok example_repository, example_repository_heap) ∧
  ∃ rs st made,
    serve_all "locator" example_endpoints example_requests
      (MkSecure example_repository example_repository_heap) = (Ok rs, st) ∧
    length rs = length example_requests ∧
    (∀ i j name a b,
       example_requests !! i = Some (Resolve name) →
       example_requests !! j = Some (Resolve name) →
       rs !! i = Some a → rs !! j = Some b → a = b) ∧
    secure_heap st = example_repository_heap ++ made ∧
    NoDup (service_names made).
Proof.
  assert (Hinit : SecureServiceRepository_init example_endpoints None "TVM2" 30
                    example_kwargs []
                  = (Ok example_repository, example_repository_heap))
    by reflexivity.
  split; [exact Hinit|].
  exact (proj2 (resolve_is_memoized "locator" example_endpoints None [])
           "TVM2" 30 example_kwargs example_repository example_repository_heap
           example_requests Hinit).
Defined.

Lemma secure_cache_composition_witness :
  SecureServiceRepository_init example_endpoints None "TVM2" 30 example_kwargs []
  = (Ok example_repository, example_repository_heap) ∧
  ∃ rs st,
    serve_all "locator" example_endpoints example_requests
      (MkSecure example_repository example_repository_heap) = (Ok rs, st) ∧
    length rs = length example_requests ∧
    (∀ i j name a b,
       example_requests !! i = Some (ResolveSecure name) →
       example_requests !! j = Some (ResolveSecure name) →
       rs !! i = Some a → rs !! j = Some b → a = b).
Proof.
  assert (Hinit : SecureServiceRepository_init example_endpoints None "TVM2" 30
                    example_kwargs []
                  = (Ok example_repository, example_repository_heap))
    by reflexivity.
  split; [exact Hinit|].
  destruct (secure_cache_composition "locator" example_endpoints None "TVM2" 30
              example_kwargs [] example_repository example_repository_heap
              example_requests Hinit)
    as (rs & st & Hrun & Hlen & Hsame & _).
  exists rs, st. split_and!; [exact Hrun | exact Hlen | exact Hsame].
Defined.

(** * More on the repositories *)

Section MoreCaches.

Variable LOCATOR_SERVICE_NAME : string.
Variable LOCATOR_DEFAULT_ENDPOINTS : list endpoint.

Local Abbreviation create_service :=
  (create_service LOCATOR_SERVICE_NAME LOCATOR_DEFAULT_ENDPOINTS).
Local Abbreviation resolve_all :=
  (resolve_all LOCATOR_SERVICE_NAME LOCATOR_DEFAULT_ENDPOINTS).
Local Abbreviation create_secure_service :=
  (create_secure_service LOCATOR_SERVICE_NAME LOCATOR_DEFAULT_ENDPOINTS).
Local Abbreviation serve := (serve LOCATOR_SERVICE_NAME LOCATOR_DEFAULT_ENDPOINTS).
Local Abbreviation serve_all :=
  (serve_all LOCATOR_SERVICE_NAME LOCATOR_DEFAULT_ENDPOINTS).
Local Abbreviation known := (resolved LOCATOR_SERVICE_NAME).
Local Abbreviation wf :=
  (well_formed LOCATOR_SERVICE_NAME LOCATOR_DEFAULT_ENDPOINTS).

(** The secure repository with the superclass part replaced. *)
Local Abbreviation with_plain st p :=
  (MkSecure
     (MkSecureServiceRepository (plain_self p)
        (_token_expiration_s (secure_self st)) (_secure_provider (secure_self st))
        (_cache_secured (secure_self st)))
     (plain_heap p)).

Lemma super_run {A} (m : M Plain A) st r p :
  m (as_plain st) = (r, p) → super m st = (r, with_plain st p).
Proof. intros H. unfold super. by rewrite H. Qed.

Lemma with_plain_same st : with_plain st (as_plain st) = st.
Proof. by destruct st as [[] ?]. Qed.

(** [create_service] keeps a well-formed repository well formed. *)
Lemma wf_resolve name st r p :
  wf st →
  create_service name (as_plain st) = (Ok r, p) →
  wf (with_plain st p) ∧
  _locator (plain_self p) = _locator (base (secure_self st)) ∧
  known (plain_self p) name = Some r ∧
  ∃ made, plain_heap p = secure_heap st ++ made.
Proof.
  intros (Hloc & HL & Hc & Hs) Hrun.
  destruct (known (base (secure_self st)) name) as [r'|] eqn:Hk.
  - rewrite (create_service_resolved _ _ name (as_plain st) r') in Hrun by done.
    injection Hrun as <- <-. rewrite with_plain_same.
    split_and!; [done|done|done|]. exists []. simpl. by rewrite app_nil_r.
  - unfold resolved in Hk.
    destruct (_cache (base (secure_self st)) !! name) eqn:Hn; [done|].
    case_bool_decide as Hne; [done|].
    rewrite (create_service_miss _ _ name (as_plain st)) in Hrun by done.
    injection Hrun as <- <-. simpl.
    split_and!; [|done| |by eexists].
    + unfold well_formed. simpl. split_and!.
      * destruct Hloc as [eps Hloc]. exists eps. by apply lookup_app_l_Some.
      * by rewrite lookup_insert_ne.
      * intros n r. destruct (decide (n = name)) as [->|Hnn].
        -- rewrite lookup_insert_eq. intros [= <-]. by apply list_lookup_middle.
        -- rewrite lookup_insert_ne by done. intros H.
           apply lookup_app_l_Some. by apply Hc.
      * intros n a Ha. destruct (Hs n a Ha) as (w & Hw & Hr).
        exists w. split; [by apply lookup_app_l_Some|].
        unfold resolved in *. simpl.
        destruct (decide (n = name)) as [->|Hnn].
        -- rewrite Hn, bool_decide_eq_false_2 in Hr by done. done.
        -- by rewrite lookup_insert_ne.
    + unfold resolved. simpl. by rewrite lookup_insert_eq.
Qed.

(** So does the construction of an adaptor around a known handle. *)
Lemma wf_adaptor name st w :
  wf st →
  known (base (secure_self st)) name = Some w →
  wf (MkSecure
        (MkSecureServiceRepository (base (secure_self st))
           (_token_expiration_s (secure_self st))
           (_secure_provider (secure_self st))
           (<[name := length (secure_heap st)]> (_cache_secured (secure_self st))))
        (secure_heap st ++
         [ObjAdaptor (SecureServiceAdaptor_init w
                        (_secure_provider (secure_self st))
                        (_token_expiration_s (secure_self st)))])).
Proof.
  intros (Hloc & HL & Hc & Hs) Hk. unfold well_formed. simpl. split_and!.
  - destruct Hloc as [eps Hloc]. exists eps. by apply lookup_app_l_Some.
  - done.
  - intros n r H. apply lookup_app_l_Some. by apply Hc.
  - intros n a. destruct (decide (n = name)) as [->|Hnn].
    + rewrite lookup_insert_eq. intros [= <-].
      exists w. split; [by apply list_lookup_middle|done].
    + rewrite lookup_insert_ne by done. intros Ha.
      destruct (Hs n a Ha) as (w' & Hw & Hr).
      exists w'. split; [by apply lookup_app_l_Some|done].
Qed.

(** One call on a well-formed secure repository. *)
Lemma serve_wf rq st :
  wf st →
  ∃ r st',
    serve rq st = (Ok r, st') ∧
    wf st' ∧
    _locator (base (secure_self st')) = _locator (base (secure_self st)) ∧
    _secure_provider (secure_self st') = _secure_provider (secure_self st) ∧
    _token_expiration_s (secure_self st') = _token_expiration_s (secure_self st).
Proof.
  intros Hwf.
  destruct (create_service_step LOCATOR_SERVICE_NAME LOCATOR_DEFAULT_ENDPOINTS
              (match rq with Resolve n | ResolveSecure n => n end) (as_plain st))
    as (r & p & made & Hrun & _).
  destruct rq as [name|name]; simpl in Hrun.
  - destruct (wf_resolve name st r p Hwf Hrun) as (Hwf' & Hl & _ & _).
    exists r, (with_plain st p). split_and!; try done.
    simpl. by apply super_run.
  - destruct (_cache_secured (secure_self st) !! name) as [a|] eqn:Hc.
    + exists a, st. split_and!; try done.
      simpl. by apply create_secure_service_hit.
    + destruct (wf_resolve name st r p Hwf Hrun) as (Hwf' & Hl & Hk & _).
      eexists _, _. split_and!.
      * simpl. by apply create_secure_service_miss.
      * by apply (wf_adaptor name (with_plain st p) r).
      * done.
      * done.
      * done.
Qed.

Lemma serve_all_wf rqs : ∀ st,
  wf st →
  ∃ rs st',
    serve_all rqs st = (Ok rs, st') ∧
    wf st' ∧
    _locator (base (secure_self st')) = _locator (base (secure_self st)) ∧
    _secure_provider (secure_self st') = _secure_provider (secure_self st) ∧
    _token_expiration_s (secure_self st') = _token_expiration_s (secure_self st).
Proof.
  induction rqs as [|rq rqs IH]; intros st Hwf.
  - by exists [], st.
  - destruct (serve_wf rq st Hwf) as (r & st1 & Hrun & Hwf1 & Hl & Hp & HT).
    destruct (IH st1 Hwf1) as (rs & st' & Hrun' & Hwf' & Hl' & Hp' & HT').
    exists (r :: rs), st'. split_and!; [|done|congruence..].
    simpl. unfold mbind, M_bind. rewrite Hrun.
    fold (repository.serve_all LOCATOR_SERVICE_NAME LOCATOR_DEFAULT_ENDPOINTS).
    by rewrite Hrun'.
Qed.

Lemma create_ticket_service_extends mod_ endpoints (h : Heap) r h' :
  create_ticket_service LOCATOR_DEFAULT_ENDPOINTS mod_ endpoints h = (r, h') →
  ∃ made, h' = h ++ made.
Proof.
  unfold create_ticket_service.
  repeat case_bool_decide; intros [= _ <-]; first [by eexists [_]|exists []];
    by rewrite app_nil_r.
Qed.

(** [__init__] builds a well-formed repository around a new locator. *)
Lemma init_wf endpoints mod_ interval kwargs (h0 : Heap) repo h1 :
  SecureServiceRepository_init LOCATOR_DEFAULT_ENDPOINTS endpoints mod_ interval
    kwargs h0 = (Ok repo, h1) →
  wf (MkSecure repo h1) ∧
  _locator (base repo) = length h0 ∧
  h1 !! length h0 = Some (ObjLocator (default LOCATOR_DEFAULT_ENDPOINTS endpoints)) ∧
  _token_expiration_s repo = interval.
Proof.
  unfold SecureServiceRepository_init, ServiceRepository_init, Locator, new,
    lift_outcome, mbind, M_bind. cbv beta iota.
  unfold mret at 1, M_ret at 1. cbv beta iota.
  destruct (create_ticket_service _ _ _ _) as [[ts|e] h] eqn:Hts; [|done].
  destruct (create_ticket_service_extends _ _ _ _ _ Hts) as [made ->].
  destruct (call_create_secure_provider _ _ _) as [prov|e]; [|done].
  intros [= <- <-].
  assert (Hl : ((h0 ++ [ObjLocator (default LOCATOR_DEFAULT_ENDPOINTS endpoints)])
                 ++ made) !! length h0
               = Some (ObjLocator (default LOCATOR_DEFAULT_ENDPOINTS endpoints))).
  { apply lookup_app_l_Some. by apply list_lookup_middle. }
  split_and!; [|done|done|done].
  unfold well_formed. simpl. split_and!; [by eexists|done|done|done].
Qed.

Lemma wf_wraps st : wf st → adaptors_wrap_resolved LOCATOR_SERVICE_NAME st.
Proof.
  intros (_ & _ & _ & Hs) n a Ha. destruct (Hs n a Ha) as (w & Hw & Hk).
  eexists. split; [exact Hw|done].
Qed.

(** What [create_service] returns is the locator, under its reserved
    name, or the [Service] built for the name. *)
Lemma known_is_handle st n r :
  wf st →
  known (base (secure_self st)) n = Some r →
  (n = LOCATOR_SERVICE_NAME ∧ r = _locator (base (secure_self st)) ∧
   ∃ eps, secure_heap st !! r = Some (ObjLocator eps)) ∨
  secure_heap st !! r
  = Some (ObjService n LOCATOR_DEFAULT_ENDPOINTS
            (Some (_locator (base (secure_self st))))).
Proof.
  intros (Hloc & HL & Hc & _). unfold resolved.
  destruct (_cache (base (secure_self st)) !! n) as [r'|] eqn:Hn.
  - intros [= <-]. right. by apply Hc.
  - case_bool_decide; [|done]. intros [= <-]. left. done.
Qed.

Lemma known_injective st n m r :
  wf st →
  known (base (secure_self st)) n = Some r →
  known (base (secure_self st)) m = Some r →
  n = m.
Proof.
  intros Hwf Hn Hm.
  destruct (known_is_handle st n r Hwf Hn) as [(-> & _ & eps & H1)|H1];
    destruct (known_is_handle st m r Hwf Hm) as [(-> & _ & eps' & H2)|H2];
    congruence.
Qed.

(** The whole life of a repository that [__init__] built. *)
Lemma life_from_init endpoints mod_ interval kwargs (h0 : Heap) repo h1 rqs :
  SecureServiceRepository_init LOCATOR_DEFAULT_ENDPOINTS endpoints mod_ interval
    kwargs h0 = (Ok repo, h1) →
  ∃ rs st,
    serve_all rqs (MkSecure repo h1) = (Ok rs, st) ∧
    length rs = length rqs ∧
    wf st ∧
    _locator (base (secure_self st)) = length h0 ∧
    _secure_provider (secure_self st) = _secure_provider repo ∧
    _token_expiration_s (secure_self st) = interval ∧
    (∀ i n r, rqs !! i = Some (Resolve n) → rs !! i = Some r →
              known (base (secure_self st)) n = Some r) ∧
    (∀ i n a, rqs !! i = Some (ResolveSecure n) → rs !! i = Some a →
              _cache_secured (secure_self st) !! n = Some a) ∧
    secure_heap st !! length h0
    = Some (ObjLocator (default LOCATOR_DEFAULT_ENDPOINTS endpoints)).
Proof.
  intros Hinit.
  destruct (init_wf _ _ _ _ _ _ _ Hinit) as (Hwf & Hl & Hh & HT).
  destruct (serve_all_wf rqs _ Hwf) as (rs & st & Hrun & Hwf' & Hl' & Hp' & HT').
  destruct (serve_all_spec LOCATOR_SERVICE_NAME LOCATOR_DEFAULT_ENDPOINTS rqs _
              (wf_wraps _ Hwf))
    as (rs' & st' & made & Hrun' & Hlen & _ & _ & _ & _ & Hidx & Hidxs & Hheap & _).
  rewrite Hrun in Hrun'. injection Hrun' as <- <-.
  exists rs, st. split_and!; try done.
  - by rewrite Hl'.
  - by rewrite HT'.
  - rewrite Hheap. by apply lookup_app_l_Some.
Qed.

(** X14. The reserved name of the locator is never a cache entry and
    never the name of a [Service] handed out: over the whole life of a
    secure repository, [create_service] under that name returns the one
    [Locator] object that [__init__] built at the repository's
    endpoints, and [create_secure_service] under that name returns an
    adaptor around that object. *)
Theorem locator_is_never_cached endpoints mod_ interval kwargs (h0 : Heap)
    repo h1 rqs :
  SecureServiceRepository_init LOCATOR_DEFAULT_ENDPOINTS endpoints mod_ interval
    kwargs h0 = (Ok repo, h1) →
  ∃ rs st,
    serve_all rqs (MkSecure repo h1) = (Ok rs, st) ∧
    _cache (base (secure_self st)) !! LOCATOR_SERVICE_NAME = None ∧
    secure_heap st !! length h0
    = Some (ObjLocator (default LOCATOR_DEFAULT_ENDPOINTS endpoints)) ∧
    (∀ i r, rqs !! i = Some (Resolve LOCATOR_SERVICE_NAME) → rs !! i = Some r →
            r = length h0) ∧
    (∀ i a, rqs !! i = Some (ResolveSecure LOCATOR_SERVICE_NAME) →
            rs !! i = Some a →
            ∃ ad, secure_heap st !! a = Some (ObjAdaptor ad) ∧
                  _wrapped ad = length h0).
Proof.
  intros Hinit.
  destruct (life_from_init _ _ _ _ _ _ _ rqs Hinit)
    as (rs & st & Hrun & _ & Hwf & Hl & _ & _ & Hidx & Hidxs & Hh).
  pose proof Hwf as (_ & HL & _ & Hs).
  assert (Hk : known (base (secure_self st)) LOCATOR_SERVICE_NAME
               = Some (length h0)).
  { unfold resolved. rewrite HL, bool_decide_eq_true_2 by done. by rewrite Hl. }
  exists rs, st. split_and!; try done.
  - intros i r Hi Hr. pose proof (Hidx i _ r Hi Hr). congruence.
  - intros i a Hi Ha. destruct (Hs _ a (Hidxs i _ a Hi Ha)) as (w & Hw & Hkw).
    eexists. split; [exact Hw|]. simpl. congruence.
Qed.

(** X15. Different requests never get the same object: over the whole
    life of a secure repository, if two calls returned the same object
    they were calls of the same method with the same name.  So handles
    of different names differ, adaptors of different names differ, and
    no adaptor is a handle. *)
Theorem different_requests_different_objects endpoints mod_ interval kwargs
    (h0 : Heap) repo h1 rqs :
  SecureServiceRepository_init LOCATOR_DEFAULT_ENDPOINTS endpoints mod_ interval
    kwargs h0 = (Ok repo, h1) →
  ∃ rs st,
    serve_all rqs (MkSecure repo h1) = (Ok rs, st) ∧
    ∀ i j rq rq' r,
      rqs !! i = Some rq → rqs !! j = Some rq' →
      rs !! i = Some r → rs !! j = Some r → rq = rq'.
Proof.
  intros Hinit.
  destruct (life_from_init _ _ _ _ _ _ _ rqs Hinit)
    as (rs & st & Hrun & _ & Hwf & _ & _ & _ & Hidx & Hidxs & _).
  pose proof Hwf as (_ & _ & _ & Hs).
  assert (Hmix : ∀ n m r,
            known (base (secure_self st)) n = Some r →
            _cache_secured (secure_self st) !! m = Some r → False).
  { intros n m r Hn Hm. destruct (Hs m r Hm) as (w & Hw & _).
    destruct (known_is_handle st n r Hwf Hn) as [(_ & _ & eps & H)|H]; congruence. }
  exists rs, st. split; [done|].
  intros i j [n|n] [m|m] r Hi Hj Hr Hr'.
  - f_equal. eapply known_injective; eauto.
  - destruct (Hmix n m r); eauto.
  - destruct (Hmix m n r); eauto.
  - f_equal.
    destruct (Hs n r (Hidxs i n r Hi Hr)) as (w & Hw & Hk).
    destruct (Hs m r (Hidxs j m r Hj Hr')) as (w' & Hw' & Hk').
    assert (w' = w) as -> by (unfold SecureServiceAdaptor_init in *; congruence).
    eapply known_injective; eauto.
Qed.

(** X16. What a secure repository hands out is as its constructors left
    it, as long as nothing is called through the adaptors in between: a
    handle for any name but the locator's is a [Service] built for that
    very name, with the repository's locator and the default endpoints,
    and an adaptor is unfetched (no token, expiry 0) with the one
    provider and the interval the repository was built with, around a
    handle. *)
Theorem handed_out_objects_are_as_built endpoints mod_ interval kwargs
    (h0 : Heap) repo h1 rqs :
  SecureServiceRepository_init LOCATOR_DEFAULT_ENDPOINTS endpoints mod_ interval
    kwargs h0 = (Ok repo, h1) →
  ∃ rs st,
    serve_all rqs (MkSecure repo h1) = (Ok rs, st) ∧
    (∀ i n r, rqs !! i = Some (Resolve n) → rs !! i = Some r →
              n ≠ LOCATOR_SERVICE_NAME →
              secure_heap st !! r
              = Some (ObjService n LOCATOR_DEFAULT_ENDPOINTS (Some (length h0)))) ∧
    (∀ i n a, rqs !! i = Some (ResolveSecure n) → rs !! i = Some a →
              ∃ w o,
                secure_heap st !! a
                = Some (ObjAdaptor
                          (MkAdaptor w (_secure_provider repo) interval VNone 0)) ∧
                secure_heap st !! w = Some o ∧ is_handle o = true).
Proof.
  intros Hinit.
  destruct (life_from_init _ _ _ _ _ _ _ rqs Hinit)
    as (rs & st & Hrun & _ & Hwf & Hl & Hp & HT & Hidx & Hidxs & _).
  pose proof Hwf as (_ & _ & _ & Hs).
  exists rs, st. split_and!; [done| |].
  - intros i n r Hi Hr Hn.
    destruct (known_is_handle st n r Hwf (Hidx i n r Hi Hr)) as [(? & _)|H];
      [done|]. by rewrite <- Hl.
  - intros i n a Hi Ha.
    destruct (Hs n a (Hidxs i n a Hi Ha)) as (w & Hw & Hk).
    rewrite Hp, HT in Hw.
    destruct (known_is_handle st n w Hwf Hk) as [(_ & _ & eps & H)|H];
      eexists w, _; split_and!; try done.
Qed.

(** X17. Asking twice costs nothing the second time: on any secure
    repository, whatever its state, a call of [create_service] or
    [create_secure_service] returns, and the same call repeated right
    after it returns the same object and leaves the caches and the heap
    exactly as the first call left them. *)
Theorem serve_is_idempotent rq st :
  ∃ r st1, serve rq st = (Ok r, st1) ∧ serve rq st1 = (Ok r, st1).
Proof.
  destruct (create_service_step LOCATOR_SERVICE_NAME LOCATOR_DEFAULT_ENDPOINTS
              (match rq with Resolve n | ResolveSecure n => n end) (as_plain st))
    as (r & p & made & Hrun & Hres & _).
  destruct rq as [name|name]; simpl in Hrun, Hres.
  - exists r, (with_plain st p). split.
    + simpl. by apply super_run.
    + simpl. by apply super_create_service_known.
  - destruct (_cache_secured (secure_self st) !! name) as [a|] eqn:Hc.
    + exists a, st. split; simpl; by apply create_secure_service_hit.
    + eexists _, _. split.
      * simpl. by apply create_secure_service_miss.
      * simpl. apply create_secure_service_hit. simpl. by rewrite lookup_insert_eq.
Qed.

End MoreCaches.

Lemma locator_is_never_cached_witness :
  SecureServiceRepository_init example_endpoints None "TVM2" 30 example_kwargs []
  = (Ok example_repository, example_repository_heap) ∧
  ∃ rs st,
    serve_all "locator" example_endpoints example_requests
      (MkSecure example_repository example_repository_heap) = (Ok rs, st) ∧
    _cache (base (secure_self st)) !! "locator" = None ∧
    ∀ i r, example_requests !! i = Some (Resolve "locator") → rs !! i = Some r →
           r = 0%nat.
Proof.
  assert (Hinit : SecureServiceRepository_init example_endpoints None "TVM2" 30
                    example_kwargs []
                  = (Ok example_repository, example_repository_heap))
    by reflexivity.
  split; [exact Hinit|].
  destruct (locator_is_never_cached "locator" example_endpoints None "TVM2" 30
              example_kwargs [] example_repository example_repository_heap
              example_requests Hinit)
    as (rs & st & Hrun & Hc & _ & Hl & _).
  exists rs, st. split_and!; [exact Hrun | exact Hc | exact Hl].
Defined.

Lemma different_requests_different_objects_witness :
  SecureServiceRepository_init example_endpoints None "TVM2" 30 example_kwargs []
  = (Ok example_repository, example_repository_heap) ∧
  ∃ rs st,
    serve_all "locator" example_endpoints example_requests
      (MkSecure example_repository example_repository_heap) = (Ok rs, st) ∧
    ∀ i j rq rq' r,
      example_requests !! i = Some rq → example_requests !! j = Some rq' →
      rs !! i = Some r → rs !! j = Some r → rq = rq'.
Proof.
  assert (Hinit : SecureServiceRepository_init example_endpoints None "TVM2" 30
                    example_kwargs []
                  = (Ok example_repository, example_repository_heap))
    by reflexivity.
  split; [exact Hinit|].
  exact (different_requests_different_objects "locator" example_endpoints None
           "TVM2" 30 example_kwargs [] example_repository example_repository_heap
           example_requests Hinit).
Defined.

Lemma handed_out_objects_are_as_built_witness :
  SecureServiceRepository_init example_endpoints None "TVM2" 30 example_kwargs []
  = (Ok example_repository, example_repository_heap) ∧
  ∃ rs st,
    serve_all "locator" example_endpoints example_requests
      (MkSecure example_repository example_repository_heap) = (Ok rs, st) ∧
    ∀ i n a, example_requests !! i = Some (ResolveSecure n) → rs !! i = Some a →
             ∃ w o,
               secure_heap st !! a
               = Some (ObjAdaptor
                         (MkAdaptor w (TVM2 (Some 1%nat) example_credentials) 30
                            VNone 0)) ∧
               secure_heap st !! w = Some o ∧ is_handle o = true.
Proof.
  assert (Hinit : SecureServiceRepository_init example_endpoints None "TVM2" 30
                    example_kwargs []
                  = (Ok example_repository, example_repository_heap))
    by reflexivity.
  split; [exact Hinit|].
  destruct (handed_out_objects_are_as_built "locator" example_endpoints None
              "TVM2" 30 example_kwargs [] example_repository
              example_repository_heap example_requests Hinit)
    as (rs & st & Hrun & _ & Ha).
  exists rs, st. split; [exact Hrun | exact Ha].
Defined.
